(** * Partitioned heat equation, FEniCS-FEniCS participant (heat.py)

    A shallow embedding of [HT/partitioned-heat/fenics-fenics/heat.py]: the
    geometry predicates, the flux evaluator, the resolution of the command
    line into a role and configuration paths, and the time-stepping loop
    around the preCICE adapter.

    Python floats are IEEE binary64 numbers and are modelled by Rocq's
    primitive floats; Python integers by [Z]; strings by [string].  The
    external collaborators (FEniCS, numpy, the fenicsadapter package, the
    module errorcomputation) are the methods of the class [World]; the
    controller is modelled for every implementation of them. *)

From Stdlib Require Import ZArith String Ascii Bool Lia Floats DecimalString.
From stdpp Require Import base list.

Set Warnings "-inexact-float".
Local Open Scope Z_scope.

(** ** Exceptions and fallible computations *)

Inductive exn : Type :=
  | Exception (msg : string)
  | AssertionError
  | IndexError
  | NameError (name : string).

Definition result (X : Type) : Type := exn + X.

Definition ret {X} (x : X) : result X := inr x.
Definition raise {X} (e : exn) : result X := inl e.
Definition bind {X Y} (m : result X) (k : X -> result Y) : result Y :=
  match m with
  | inl e => inl e
  | inr x => k x
  end.

Notation "'let*' x ':=' m 'in' k" := (bind m (fun x => k))
  (at level 10, x name, m at level 100, k at level 200).

(** [for i in range(n): s = body(s, i)], stopping at the first exception. *)
Fixpoint for_range_from {S} (start : nat) (n : nat)
    (body : S -> nat -> result S) (s : S) : result S :=
  match n with
  | O => ret s
  | Datatypes.S k => let* s' := body s start in for_range_from (Datatypes.S start) k body s'
  end.

Definition for_range {S} (n : nat) (body : S -> nat -> result S) (s : S) : result S :=
  for_range_from 0 n body s.

(** ** Data of the numerical collaborator *)

(** A point of the two-dimensional mesh: [x[0]] and [x[1]]. *)
Record Point := mkPoint { x0 : float; x1 : float }.

(** The vector of degrees of freedom of a FEniCS [Function]. *)
Abbreviation Field := (list float).

Record Mesh := RectangleMesh {
  mesh_p0 : Point; mesh_p1 : Point; mesh_nx : Z; mesh_ny : Z }.

Record FunctionSpaceT := FunctionSpace {
  fs_mesh : Mesh; fs_family : string; fs_degree : Z }.

(** The three [Expression] objects of the script, each with the parameters it
    was built with; [t] is the attribute the loop reassigns. *)
Inductive Expression : Type :=
  | Expr_u_D (alpha beta gamma t : float)
  | Expr_f_N (gamma t : float)
  | Expr_f (alpha beta gamma t : float).

(** The C++ formulas of the three expressions, evaluated in binary64. *)
Definition eval_expression (e : Expression) (x : Point) : float :=
  match e with
  | Expr_u_D alpha beta gamma t =>
      (1 + gamma * t * x0 x * x0 x + (1 - gamma) * x0 x * x0 x
         + alpha * x1 x * x1 x + beta * t)%float
  | Expr_f_N gamma t =>
      (2 * gamma * t * x0 x + 2 * (1 - gamma) * x0 x)%float
  | Expr_f alpha beta gamma t =>
      (beta + gamma * x0 x * x0 x - 2 * gamma * t - 2 * (1 - gamma) - 2 * alpha)%float
  end.

(** The forms the script assembles: [F_known_u] with the objects it refers to
    (their current values), and the boundary measure [v * ds]. *)
Inductive Form : Type :=
  | F_known_u_form (v : FunctionSpaceT) (u_np1 : Field) (dt : float) (u_n : Field)
                   (f : Expression)
  | v_ds (V : FunctionSpaceT).

Inductive ProblemType : Type := DIRICHLET | NEUMANN.

(** The linear problem [a == L] with boundary conditions [bcs], through the
    current values of the objects the forms and conditions refer to. *)
Definition SubDomain := Point -> bool -> bool.

Record Problem := mkProblem {
  p_problem : ProblemType;
  p_V : FunctionSpaceT;
  p_dt : float;
  p_u_n : Field;
  p_f : Expression;
  p_u_D : Expression;
  (* where [DirichletBC(V, u_D, remaining_boundary)] imposes [u_D] *)
  p_boundary : SubDomain }.

(** What [precice.advance] returns:
    [(t, n, precice_timestep_complete, precice_dt)]. *)
Record AdvanceResult := mkAdvance {
  adv_t : float; adv_n : Z; adv_complete : bool; adv_dt : float }.

(** ** The external collaborators *)

Class World (A : Type) := {
  (* Python: [str.format] of a float *)
  float_str : float -> string;
  (* FEniCS *)
  near : float -> float -> float -> bool;
  dim : FunctionSpaceT -> nat;
  interpolate : Expression -> FunctionSpaceT -> Field;
  assemble : Form -> list float;
  solve : A -> Problem -> Field;
  (* fenicsadapter.Adapter; [A] is the state of the adapter object.  The
     adapter receives the Function object [u_n] itself: what it leaves in it
     is returned next to its new state. *)
  Adapter : string -> string -> A;
  _solver_name : A -> string;
  fenics_dt : A -> float;
  initialize : A -> SubDomain -> Mesh -> Field -> Field -> Field -> A * float;
  is_coupling_ongoing : A -> bool;
  advance : A -> Field -> Field -> Field -> float -> float -> Z
            -> A * Field * AdvanceResult;
  finalize : A -> A;
  (* errorcomputation.compute_errors(u_approx, u_ref, v, total_error_tol) *)
  compute_errors : Field -> Field -> FunctionSpaceT -> option float
                   -> result (float * Field) }.

(** numpy's [np.min] of a two-element array: the reduction keeps the first
    element when it is [<=] the second or is NaN, so NaN propagates. *)
Definition np_min2 (a b : float) : float :=
  if ((a <=? b)%float || is_nan a)%bool then a else b.

(** ** Module constants (lines 133-138) *)

Definition alpha : float := 3%float.
Definition beta : float := 1.3%float.
Definition gamma : float := 0%float.
Definition y_bottom : float := 0%float.
Definition y_top : float := 1%float.
Definition x_left : float := 0%float.
Definition x_right : float := 2%float.
Definition x_coupling : float := 1.5%float.

(** ** Geometry predicates (lines 47-66) *)

Section Geometry.
Context {A : Type} {W : World A}.

Definition CouplingBoundary_inside : SubDomain := fun x on_boundary =>
  let tol := 1e-14%float in
  if (on_boundary && near (x0 x) x_coupling tol
      && negb (near (x1 x) y_bottom tol) && negb (near (x1 x) y_top tol))%bool
  then true else false.

Record ComplementaryBoundary := mkComplementaryBoundary { complement : SubDomain }.

Definition ComplementaryBoundary_inside (self : ComplementaryBoundary) : SubDomain :=
  fun x on_boundary =>
    let tol := 1e-14%float in
    if (on_boundary && negb (complement self x on_boundary))%bool
    then true else false.

Definition coupling_boundary : SubDomain := CouplingBoundary_inside.
Definition remaining_boundary : SubDomain :=
  ComplementaryBoundary_inside (mkComplementaryBoundary coupling_boundary).
End Geometry.

(** ** Flux evaluator (lines 69-87) *)

Definition getitem (v : list float) (i : nat) : result float :=
  match v !! i with
  | Some x => ret x
  | None => raise IndexError
  end.

Definition setitem (v : list float) (i : nat) (x : float) : result (list float) :=
  if (i <? length v)%nat then ret (<[i := x]> v) else raise IndexError.

Definition flux_tolerance : float := 1e-10%float.

Section FluxEvaluator.
Context {A : Type} {W : World A}.

(** The body of the loop over the degrees of freedom. *)
Definition flux_entry (fluxes_vector area : list float)
    (fluxes : Field) (i : nat) : result Field :=
  let* a := getitem area i in
  if negb (a =? 0)%float then
    let* r := getitem fluxes_vector i in
    setitem fluxes i (r / a)%float
  else
    let* r := getitem fluxes_vector i in
    if (abs r <? flux_tolerance)%float then
      let* r' := getitem fluxes_vector i in
      setitem fluxes i r'
    else raise AssertionError.

Definition fluxes_from_temperature_full_domain (F : Form) (V : FunctionSpaceT)
    : result Field :=
  let fluxes_vector := assemble F in
  let fluxes := replicate (dim V) 0%float in
  let area := assemble (v_ds V) in
  for_range (length area) (flux_entry fluxes_vector area) fluxes.
End FluxEvaluator.

(** ** Role and configuration resolver (lines 90-131) *)

Record Args := mkArgs {
  dirichlet : bool;
  neumann : bool;
  waveform : Z * Z;
  window_size : float;
  coupling_scheme : string }.

(** [str] of a Python integer. *)
Definition int_str (z : Z) : string := NilZero.string_of_int (Z.to_int z).

(** [posixpath.join]: a component that starts with the separator replaces
    what was joined so far; a separator is inserted unless the path so far is
    empty or already ends with one. *)
Fixpoint endswith_sep (s : string) : bool :=
  match s with
  | EmptyString => false
  | String c EmptyString => Ascii.eqb c "/"
  | String _ s' => endswith_sep s'
  end.

Definition is_empty (s : string) : bool :=
  match s with EmptyString => true | _ => false end.

Definition join_step (path b : string) : string :=
  if String.prefix "/" b then b
  else if (is_empty path || endswith_sep path)%bool then (path ++ b)%string
  else (path ++ "/" ++ b)%string.

Definition os_path_join (a : string) (p : list string) : string :=
  fold_left join_step p a.

Definition both_roles_message : string :=
  "you can only choose either a dirichlet problem (option -d) or a neumann problem (option -n)".
Definition no_role_message : string :=
  "you have to choose either a dirichlet problem (option -d) or a neumann problem (option -n)".

(** Lines 100-107.  [problem] is unbound until one of the first two
    conditionals binds it. *)
Definition resolve_problem (args : Args) : result ProblemType :=
  let problem : option ProblemType := None in
  let problem := if dirichlet args then Some DIRICHLET else problem in
  let problem := if neumann args then Some NEUMANN else problem in
  if (dirichlet args && neumann args)%bool then raise (Exception both_roles_message)
  else if negb (dirichlet args || neumann args) then raise (Exception no_role_message)
  else match problem with
       | Some p => ret p
       | None => raise (NameError "problem")
       end.

Definition error_tol : float := 1e-12%float.

Record Config := mkConfig {
  cfg_problem : ProblemType;
  cfg_nx : Z;
  cfg_ny : Z;
  configs_path : string;
  adapter_config_filename : string;
  other_adapter_config_filename : string;
  cfg_p0 : Point;
  cfg_p1 : Point }.

Section Resolver.
Context {A : Type} {W : World A}.

Definition wr_tag (args : Args) : string :=
  ("WR" ++ int_str (fst (waveform args)) ++ int_str (snd (waveform args)))%string.
Definition window_size_tag (args : Args) : string :=
  ("dT" ++ float_str (window_size args))%string.
Definition coupling_scheme_tag (args : Args) : string := coupling_scheme args.

(** Lines 111-145 for a resolved role. *)
Definition configure (args : Args) (problem : ProblemType) : Config :=
  let nx := 10 in
  let ny := 10 in
  let configs_path :=
    os_path_join "experiments"
      [wr_tag args; window_size_tag args; coupling_scheme_tag args] in
  let '(nx, adapter_config_filename, other_adapter_config_filename) :=
    match problem with
    | DIRICHLET =>
        (nx * 3,
         os_path_join configs_path ["precice-adapter-config-D.json"%string],
         os_path_join configs_path ["precice-adapter-config-N.json"%string])
    | NEUMANN =>
        (nx,
         os_path_join configs_path ["precice-adapter-config-N.json"%string],
         os_path_join configs_path ["precice-adapter-config-D.json"%string])
    end in
  let '(p0, p1) :=
    match problem with
    | DIRICHLET => (mkPoint x_left y_bottom, mkPoint x_coupling y_top)
    | NEUMANN => (mkPoint x_coupling y_bottom, mkPoint x_right y_top)
    end in
  mkConfig problem nx ny configs_path
    adapter_config_filename other_adapter_config_filename p0 p1.
End Resolver.

(** ** The script: calls to the collaborators, in program order *)

Inductive OutFile : Type := temperature_out | ref_out | error_out.

Inductive Event : Type :=
  | EvRectangleMesh (m : Mesh)
  | EvFunctionSpace (V : FunctionSpaceT)
  | EvAdapter (own other : string)
  | EvInitialize (read_field write_field u_n : Field)
  | EvFile (f : OutFile) (name : string)
  | EvWrite (f : OutFile) (u : Field)
  | EvSolve (p : Problem)
  | EvAdvance (write_function u_np1 u_n : Field) (t dt : float) (n : Z)
              (r : AdvanceResult)
  | EvFinalize.

(** A piece of the script: it extends the log of calls made so far and either
    raises or returns a value. *)
Definition Script (X : Type) : Type :=
  list Event -> (exn * list Event) + (X * list Event).

Definition pure {X} (x : X) : Script X := fun log => inr (x, log).
Definition throw {X} (e : exn) : Script X := fun log => inl (e, log).
Definition emit (ev : Event) : Script unit := fun log => inr (tt, log ++ [ev]).
Definition lift {X} (m : result X) : Script X :=
  fun log => match m with inl e => inl (e, log) | inr x => inr (x, log) end.
Definition sbind {X Y} (m : Script X) (k : X -> Script Y) : Script Y :=
  fun log => match m log with
             | inl err => inl err
             | inr (x, log') => k x log'
             end.

Notation "'let!' x ':=' m 'in' k" := (sbind m (fun x => k))
  (at level 10, x name, m at level 100, k at level 200).
Notation "m ';;!' k" := (sbind m (fun _ => k))
  (at level 100, k at level 200, right associativity).

(** The variables the loop rebinds and the objects it mutates. *)
Record State (A : Type) := mkState {
  t : float;
  n : Z;
  dt : float;
  u_D_t : float;
  f_t : float;
  u_n : Field;
  u_np1 : Field;
  u_ref : Field;
  precice : A }.
Arguments mkState {A}.
Arguments t {A}. Arguments n {A}. Arguments dt {A}. Arguments u_D_t {A}.
Arguments f_t {A}. Arguments u_n {A}. Arguments u_np1 {A}. Arguments u_ref {A}.
Arguments precice {A}.

Inductive Outcome (A : Type) : Type :=
  | Finished (st : State A) (log : list Event)
  | Raised (e : exn) (log : list Event)
  | Running (st : State A) (log : list Event).
Arguments Finished {A}. Arguments Raised {A}. Arguments Running {A}.

Definition outcome_log {A} (o : Outcome A) : list Event :=
  match o with
  | Finished _ log | Raised _ log | Running _ log => log
  end.

Section Controller.
Context {A : Type} {W : World A}.

Definition cfg_mesh (cfg : Config) : Mesh :=
  RectangleMesh (cfg_p0 cfg) (cfg_p1 cfg) (cfg_nx cfg) (cfg_ny cfg).
Definition cfg_V (cfg : Config) : FunctionSpaceT :=
  FunctionSpace (cfg_mesh cfg) "P" 1.

Definition u_D (t : float) : Expression := Expr_u_D alpha beta gamma t.
Definition f_N (t : float) : Expression := Expr_f_N gamma t.
Definition f (t : float) : Expression := Expr_f alpha beta gamma t.

Definition call_initialize (precice : A) (read_field write_field u_n : Field)
    (mesh : Mesh) : Script (A * float) :=
  emit (EvInitialize read_field write_field u_n) ;;!
  pure (initialize precice coupling_boundary mesh read_field write_field u_n).

Definition call_advance (precice : A) (write_function u_np1 u_n : Field)
    (t dt : float) (n : Z) : Script (A * Field * AdvanceResult) :=
  let r := advance precice write_function u_np1 u_n t dt n in
  emit (EvAdvance write_function u_np1 u_n t dt n (snd r)) ;;!
  pure r.

Definition write (file : OutFile) (u : Field) : Script unit := emit (EvWrite file u).

(** Lines 147-213: from the mesh to the first update of the expressions. *)
Definition start (cfg : Config) : Script (State A) :=
  let problem := cfg_problem cfg in
  let mesh := cfg_mesh cfg in
  emit (EvRectangleMesh mesh) ;;!
  let V := cfg_V cfg in
  emit (EvFunctionSpace V) ;;!
  let u_D_function := interpolate (u_D 0) V in
  let f_N_function := interpolate (f_N 0) V in
  let u_n := interpolate (u_D 0) V in
  let precice :=
    Adapter (adapter_config_filename cfg) (other_adapter_config_filename cfg) in
  emit (EvAdapter (adapter_config_filename cfg) (other_adapter_config_filename cfg)) ;;!
  let! init :=
    match problem with
    | DIRICHLET => call_initialize precice u_D_function f_N_function u_n mesh
    | NEUMANN => call_initialize precice f_N_function u_D_function u_n mesh
    end in
  let precice := fst init in
  let dt := snd init in
  let u_np1 := replicate (dim V) 0%float in
  let t := 0%float in
  let u_ref := interpolate (u_D 0) V in
  emit (EvFile temperature_out ("out/" ++ _solver_name precice ++ ".pvd")) ;;!
  emit (EvFile ref_out ("out/ref" ++ _solver_name precice ++ ".pvd")) ;;!
  emit (EvFile error_out ("out/error" ++ _solver_name precice ++ ".pvd")) ;;!
  let n := 0 in
  write temperature_out u_n ;;!
  write ref_out u_ref ;;!
  let! errors := lift (compute_errors u_n u_ref V None) in
  let error_pointwise := snd errors in
  write error_out error_pointwise ;;!
  pure (mkState t n dt (t + dt)%float (t + dt)%float u_n u_np1 u_ref precice).

(** The problem [solve(a == L, u_np1, bcs)] reads in state [st]. *)
Definition current_problem (cfg : Config) (st : State A) : Problem :=
  mkProblem (cfg_problem cfg) (cfg_V cfg) (dt st) (u_n st) (f (f_t st)) (u_D (u_D_t st))
    remaining_boundary.

(** Lines 217-243: one pass through the body of the while loop. *)
Definition loop_body (cfg : Config) (st : State A) : Script (State A) :=
  let V := cfg_V cfg in
  let pb := current_problem cfg st in
  emit (EvSolve pb) ;;!
  let u_np1 := solve (precice st) pb in
  let! adv :=
    match cfg_problem cfg with
    | DIRICHLET =>
        let! fluxes :=
          lift (fluxes_from_temperature_full_domain
                  (F_known_u_form V u_np1 (dt st) (u_n st) (f (f_t st))) V) in
        call_advance (precice st) fluxes u_np1 (u_n st) (t st) (dt st) (n st)
    | NEUMANN =>
        call_advance (precice st) u_np1 u_np1 (u_n st) (t st) (dt st) (n st)
    end in
  let precice := fst (fst adv) in
  let u_n := snd (fst adv) in
  let t := adv_t (snd adv) in
  let n := adv_n (snd adv) in
  let precice_timestep_complete := adv_complete (snd adv) in
  let precice_dt := adv_dt (snd adv) in
  let dt := np_min2 (fenics_dt precice) precice_dt in
  let! u_ref :=
    if precice_timestep_complete then
      let u_ref := interpolate (u_D (u_D_t st)) V in
      let! errors := lift (compute_errors u_n u_ref V (Some error_tol)) in
      let error_pointwise := snd errors in
      write temperature_out u_n ;;!
      write ref_out u_ref ;;!
      write error_out error_pointwise ;;!
      pure u_ref
    else pure (u_ref st) in
  pure (mkState t n dt (t + dt)%float (t + dt)%float u_n u_np1 u_ref precice).

(** [while precice.is_coupling_ongoing(): ...] followed by
    [precice.finalize()].  [fuel] bounds the number of passes; a run that
    is still coupling when it is used up is [Running]. *)
Fixpoint time_loop (fuel : nat) (cfg : Config) (st : State A) (log : list Event)
    : Outcome A :=
  if is_coupling_ongoing (precice st) then
    match fuel with
    | O => Running st log
    | S fuel' =>
        match loop_body cfg st log with
        | inl (e, log') => Raised e log'
        | inr (st', log') => time_loop fuel' cfg st' log'
        end
    end
  else
    Finished (mkState (t st) (n st) (dt st) (u_D_t st) (f_t st) (u_n st)
                (u_np1 st) (u_ref st) (finalize (precice st)))
             (log ++ [EvFinalize]).

(** The whole script. *)
Definition main (fuel : nat) (args : Args) : Outcome A :=
  match resolve_problem args with
  | inl e => Raised e []
  | inr problem =>
      let cfg := configure args problem in
      match start cfg [] with
      | inl (e, log) => Raised e log
      | inr (st, log) => time_loop fuel cfg st log
      end
  end.
End Controller.

(** ** The error evaluator *)

(** Modelled from the spec: [errorcomputation.compute_errors] is a module of
    this repository that is not among the sources.  Section 4.3 of the
    specification gives it a numerical field, a reference field, a function
    space and an optional tolerance, and has it return a scalar aggregate
    error (an L2-type norm) and a pointwise error field, flagging a failure
    when a tolerance is supplied and the aggregate error exceeds it.  The
    norm taken here is the discrete one over the degrees of freedom. *)
Definition compute_errors_spec (u_approx u_ref : Field) (V : FunctionSpaceT)
    (total_error_tol : option float) : float * Field * bool :=
  let error_pointwise := zip_with (fun a r => abs (r - a)%float) u_approx u_ref in
  let error_total :=
    sqrt (fold_left (fun acc e => (acc + e * e)%float) error_pointwise 0%float) in
  let failure :=
    match total_error_tol with
    | Some tol => (tol <? error_total)%float
    | None => false
    end in
  (error_total, error_pointwise, failure).

(** ** Reference collaborators

    One implementation of [World], used to run the script on concrete
    inputs: DOLFIN's [near], nodal interpolation on the vertices of the
    rectangle mesh, a solver that returns the manufactured solution, and an
    adapter that replays a list of answers to [advance]. *)

Definition dolfin_near (x x0 eps : float) : bool :=
  ((x0 - eps <=? x)%float && (x <=? x0 + eps)%float)%bool.

Definition float_of_Z (z : Z) : float := of_uint63 (Uint63.of_Z z).

(** Vertex [(ix, iy)] of [RectangleMesh(p0, p1, nx, ny)]. *)
Definition vertex (m : Mesh) (ix iy : nat) : Point :=
  let a := x0 (mesh_p0 m) in let b := x0 (mesh_p1 m) in
  let c := x1 (mesh_p0 m) in let d := x1 (mesh_p1 m) in
  mkPoint (a + float_of_Z (Z.of_nat ix) * (b - a) / float_of_Z (mesh_nx m))%float
          (c + float_of_Z (Z.of_nat iy) * (d - c) / float_of_Z (mesh_ny m))%float.

Definition grid (m : Mesh) : list (nat * nat) :=
  iy ← seq 0 (S (Z.to_nat (mesh_ny m)));
  ix ← seq 0 (S (Z.to_nat (mesh_nx m)));
  [(ix, iy)].

Definition vertices (m : Mesh) : list Point :=
  (fun p => vertex m (fst p) (snd p)) <$> grid m.

(** The integral of the P1 hat function of vertex [(ix, iy)] over the
    boundary of the rectangle. *)
Definition boundary_measure (m : Mesh) (p : nat * nat) : float :=
  let hx := ((x0 (mesh_p1 m) - x0 (mesh_p0 m)) / float_of_Z (mesh_nx m))%float in
  let hy := ((x1 (mesh_p1 m) - x1 (mesh_p0 m)) / float_of_Z (mesh_ny m))%float in
  let on_x := (Nat.eqb (fst p) 0 || Nat.eqb (fst p) (Z.to_nat (mesh_nx m)))%bool in
  let on_y := (Nat.eqb (snd p) 0 || Nat.eqb (snd p) (Z.to_nat (mesh_ny m)))%bool in
  match on_x, on_y with
  | true, true => ((hx + hy) / 2)%float
  | true, false => hy
  | false, true => hx
  | false, false => 0%float
  end.

Definition reference_area (V : FunctionSpaceT) : list float :=
  boundary_measure (fs_mesh V) <$> grid (fs_mesh V).

(** The exact decimal expansion of a finite float; it is what Python prints
    for floats whose expansion is short (1.0, 0.5, 1.5, 0.25, ...). *)
Fixpoint decimal_digits (k : nat) (z : Z) (acc : string) : string :=
  match k with
  | O => acc
  | S k' =>
      decimal_digits k' (z / 10)
        (String (ascii_of_nat (48 + Z.to_nat (z mod 10))) acc)
  end.

Fixpoint strip_zeros (k : nat) (z : Z) : nat * Z :=
  match k with
  | O => (O, z)
  | S k' => if (z mod 10 =? 0)%Z then strip_zeros k' (z / 10) else (k, z)
  end.

Definition exact_decimal (w : float) : string :=
  match Prim2SF w with
  | S754_zero s => if s then "-0.0" else "0.0"
  | S754_infinity s => if s then "-inf" else "inf"
  | S754_nan => "nan"
  | S754_finite s m e =>
      let sign := if s then "-"%string else ""%string in
      if (0 <=? e)%Z then (sign ++ int_str (Z.pos m * 2 ^ e) ++ ".0")%string
      else
        let k := Z.to_nat (- e) in
        let whole := Z.pos m / 2 ^ (- e) in
        let frac := (Z.pos m mod 2 ^ (- e)) * 5 ^ (- e) in
        let '(k', frac') := strip_zeros k frac in
        (sign ++ int_str whole ++ "."
           ++ match k' with O => "0"%string | _ => decimal_digits k' frac' "" end)%string
  end.

(** The replaying adapter: the answers still to be given. *)
Record Replay := mkReplay {
  answers : list AdvanceResult;
  replay_dt : float;
  replay_name : string }.

Definition replay_advance (a : Replay) (write_function u_np1 u_n : Field)
    (t dt : float) (n : Z) : Replay * Field * AdvanceResult :=
  match answers a with
  | [] => (a, u_n, mkAdvance t n false dt)
  | r :: rest =>
      (mkReplay rest (replay_dt a) (replay_name a),
       (* an accepted step stores the new field, a rejected one restores *)
       if (adv_t r =? t)%float then u_n else u_np1,
       r)
  end.

Definition reference_world (script : list AdvanceResult) (fenics_dt0 : float)
    : World Replay := {|
  float_str := exact_decimal;
  near := dolfin_near;
  dim V := length (grid (fs_mesh V));
  interpolate e V := eval_expression e <$> vertices (fs_mesh V);
  assemble F :=
    match F with
    | F_known_u_form V u_np1 _ _ _ =>
        zip_with (fun a u => (a * u)%float) (reference_area V) u_np1
    | v_ds V => reference_area V
    end;
  solve _ pb := eval_expression (p_u_D pb) <$> vertices (fs_mesh (p_V pb));
  Adapter own other := mkReplay script fenics_dt0 "HeatParticipant";
  _solver_name := replay_name;
  fenics_dt := replay_dt;
  initialize a _ _ _ _ _ := (a, replay_dt a);
  is_coupling_ongoing a := negb (bool_decide (answers a = []));
  advance := replay_advance;
  finalize a := a;
  compute_errors u_approx u_ref V tol :=
    ret (fst (compute_errors_spec u_approx u_ref V tol)) |}.

(** ** Observations on a run *)

(** What a flux entry holds after the loop over the degrees of freedom, from
    the raw residual [r] and the boundary measure [a]. *)
Definition scaled_flux (r a : float) : float :=
  if negb (a =? 0)%float then (r / a)%float else r.

(** The assertion of the flux evaluator passes at a degree of freedom. *)
Definition residual_consistent (r a : float) : bool :=
  (negb (a =? 0)%float || (abs r <? flux_tolerance)%float)%bool.

Definition script_log {X} (r : (exn * list Event) + (X * list Event)) : list Event :=
  match r with
  | inl (_, log) => log
  | inr (_, log) => log
  end.

Fixpoint count (p : Event -> bool) (log : list Event) : nat :=
  match log with
  | [] => O
  | ev :: log' => ((if p ev then 1 else 0) + count p log')%nat
  end.

Definition OutFile_eqb (f g : OutFile) : bool :=
  match f, g with
  | temperature_out, temperature_out | ref_out, ref_out | error_out, error_out => true
  | _, _ => false
  end.

Definition is_write (file : OutFile) (ev : Event) : bool :=
  match ev with
  | EvWrite g _ => OutFile_eqb file g
  | _ => false
  end.

Definition is_completed_window (ev : Event) : bool :=
  match ev with
  | EvAdvance _ _ _ _ _ _ r => adv_complete r
  | _ => false
  end.

Definition is_solve (ev : Event) : bool :=
  match ev with
  | EvSolve _ => true
  | _ => false
  end.

(** Number of writes to one output file, of completed windows, of solves. *)
Definition count_writes (file : OutFile) (log : list Event) : nat := count (is_write file) log.
Definition completed_windows (log : list Event) : nat := count is_completed_window log.
Definition sub_steps (log : list Event) : nat := count is_solve log.

(** Reading a log from its start: the flag of the latest exchange ([None]
    before the first one), and whether every write so far was allowed by
    [allowed] under the flag current at the time. *)
Definition scan_step (allowed : option bool -> bool) (s : option bool * bool) (ev : Event)
    : option bool * bool :=
  match ev with
  | EvAdvance _ _ _ _ _ _ r => (Some (adv_complete r), snd s)
  | EvWrite _ _ => (fst s, (snd s && allowed (fst s))%bool)
  | _ => s
  end.

Definition scan (allowed : option bool -> bool) (log : list Event) : option bool * bool :=
  fold_left (scan_step allowed) log (None, true).

(** Every write follows an exchange that reported a completed window. *)
Definition writes_only_when_complete (log : list Event) : bool :=
  snd (scan (fun last => match last with Some true => true | _ => false end) log).

(** The allowance of the amended reading of the output rule: a write is
    refused only under the flag of an incomplete window. *)
Definition unless_incomplete (last : option bool) : bool :=
  match last with Some false => false | _ => true end.

(** No write follows an exchange that reported an incomplete window. *)
Definition no_write_after_incomplete (log : list Event) : bool :=
  snd (scan unless_incomplete log).

(** The [(read_field, write_field)] pairs handed to [initialize] and the
    [(write_function, u_np1)] pairs handed to [advance]. *)
Definition initialize_calls (log : list Event) : list (Field * Field) :=
  ev ← log; match ev with EvInitialize r w _ => [(r, w)] | _ => [] end.
Definition advance_calls (log : list Event) : list (Field * Field) :=
  ev ← log; match ev with EvAdvance w u _ _ _ _ _ => [(w, u)] | _ => [] end.

(** The fields written to one output file, in order. *)
Definition written (file : OutFile) (log : list Event) : list Field :=
  ev ← log; match ev with EvWrite g u => if OutFile_eqb file g then [u] else [] | _ => [] end.

(** The path format of the specification:
    [experiments/WR<wr1><wr2>/dT<window>/<scheme>/precice-adapter-config-<X>.json]. *)
Definition spec_config_path {A} {W : World A} (args : Args) (suffix : string) : string :=
  ("experiments/WR" ++ int_str (fst (waveform args)) ++ int_str (snd (waveform args))
     ++ "/dT" ++ float_str (window_size args)
     ++ "/" ++ coupling_scheme args
     ++ "/precice-adapter-config-" ++ suffix ++ ".json")%string.

(** A string without the path separator. *)
Fixpoint no_sep (s : string) : bool :=
  match s with
  | EmptyString => true
  | String c s' => (negb (Ascii.eqb c "/") && no_sep s')%bool
  end.

(** The outcome of a piece of script started after [log]. *)
Definition with_prefix {X} (log : list Event) (r : (exn * list Event) + (X * list Event))
    : (exn * list Event) + (X * list Event) :=
  match r with
  | inl (e, l) => inl (e, log ++ l)
  | inr (x, l) => inr (x, log ++ l)
  end.

(** A piece of script only appends to the log it is given. *)
Definition extends {X} (m : Script X) : Prop :=
  forall log, m log = with_prefix log (m []).

(** The outcome of a loop started after [log]. *)
Definition outcome_with_prefix {A} (log : list Event) (o : Outcome A) : Outcome A :=
  match o with
  | Finished st l => Finished st (log ++ l)
  | Raised e l => Raised e (log ++ l)
  | Running st l => Running st (log ++ l)
  end.

(** The answer of the latest call to [advance] in a log. *)
Definition last_advance (log : list Event) : option AdvanceResult :=
  fold_left (fun last ev => match ev with
                            | EvAdvance _ _ _ _ _ _ r => Some r
                            | _ => last
                            end) log None.

(** ** Concrete inputs *)

Definition default_dirichlet : Args :=
  mkArgs true false (1, 1) 1%float "SERIAL_FIRST_DIRICHLET".
Definition default_neumann : Args :=
  mkArgs false true (1, 1) 1%float "SERIAL_FIRST_DIRICHLET".
Definition both_flags : Args :=
  mkArgs true true (1, 1) 1%float "SERIAL_FIRST_DIRICHLET".
Definition absolute_scheme : Args :=
  mkArgs true false (1, 1) 1%float "/tmp".

(** Two sub-steps of one window: the first exchange does not complete it. *)
Definition two_sub_steps : list AdvanceResult :=
  [mkAdvance 0.5 1 false 0.5; mkAdvance 1 2 true 0.5]%float.
(** A rejected step: the adapter answers with the time and index it was given
    and a smaller step. *)
Definition rejected_then_accepted : list AdvanceResult :=
  [mkAdvance 0 0 false 0.25; mkAdvance 0.25 1 true 0.25]%float.

(** The reference collaborators with another assembly routine. *)
Definition set_assemble {A} (W : World A) (assemble' : Form -> list float) : World A :=
  {| float_str := float_str; near := near; dim := dim; interpolate := interpolate;
     assemble := assemble'; solve := solve; Adapter := Adapter;
     _solver_name := _solver_name; fenics_dt := fenics_dt; initialize := initialize;
     is_coupling_ongoing := is_coupling_ongoing; advance := advance;
     finalize := finalize; compute_errors := compute_errors |}.

(** Collaborators whose residual is the field itself, nonzero in the interior. *)
Definition raw_residual_world : World Replay :=
  set_assemble (reference_world [] 1)
    (fun F => match F with
              | F_known_u_form _ u_np1 _ _ _ => u_np1
              | v_ds V => reference_area V
              end).

(** The Neumann participant with the reference collaborators, whose adapter
    first rejects a step and then accepts the retry: the configuration, the
    state in which the loop is entered, and the state after the first pass. *)
Definition retry_world : World Replay := reference_world rejected_then_accepted 0.5.
Definition retry_cfg : Config := configure (W := retry_world) default_neumann NEUMANN.
Definition retry_state0 : State Replay :=
  match start (W := retry_world) retry_cfg [] with
  | inr (st, _) => st
  | inl _ => mkState 0 0 0 0 0 [] [] [] (mkReplay [] 0 "")
  end.
Definition retry_pass1 : State Replay * list Event :=
  match loop_body (W := retry_world) retry_cfg retry_state0 [] with
  | inr p => p
  | inl _ => (retry_state0, [])
  end.

(** The Neumann participant whose own step 0.25 is shorter than the step the
    adapter negotiates: the first of four sub-steps of a window of size 1. *)
Definition short_step_world : World Replay :=
  reference_world [mkAdvance 0.25 1 false 1]%float 0.25.
Definition short_step_cfg : Config :=
  configure (W := short_step_world) default_neumann NEUMANN.
Definition short_step_state0 : State Replay :=
  match start (W := short_step_world) short_step_cfg [] with
  | inr (st, _) => st
  | inl _ => mkState 0 0 0 0 0 [] [] [] (mkReplay [] 0 "")
  end.
Definition short_step_pass1 : State Replay * list Event :=
  match loop_body (W := short_step_world) short_step_cfg short_step_state0 [] with
  | inr p => p
  | inl _ => (short_step_state0, [])
  end.

(** A small mesh and the residual form on it, for running the flux evaluator. *)
Definition small_V : FunctionSpaceT :=
  FunctionSpace (RectangleMesh (mkPoint 0 0) (mkPoint 1 1) 2 2) "P" 1.
Definition small_F : Form :=
  F_known_u_form small_V [1; 2; 3; 4; 5; 6; 7; 8; 9]%float 1%float [] (Expr_f 3 1.3 0 0).

(** ** Observations on whole runs *)

Definition is_finalize (ev : Event) : bool :=
  match ev with
  | EvFinalize => true
  | _ => false
  end.

Definition is_advance (ev : Event) : bool :=
  match ev with
  | EvAdvance _ _ _ _ _ _ _ => true
  | _ => false
  end.

(** Number of calls to [precice.finalize] and to [precice.advance]. *)
Definition finalize_calls (log : list Event) : nat := count is_finalize log.
Definition exchanges (log : list Event) : nat := count is_advance log.

(** Reading a log from its start with the time and step index the next
    exchange is expected to be called with: each call to [advance] must be
    made with them, and its answer gives the next ones. *)
Definition chain_step (s : float * Z * Prop) (ev : Event) : float * Z * Prop :=
  match ev with
  | EvAdvance _ _ _ t _ n r =>
      (adv_t r, adv_n r, snd s /\ t = fst (fst s) /\ n = snd (fst s))
  | _ => s
  end.

(** Every exchange of the log is called with the time and step index the
    previous one returned, the first one with 0 and 0. *)
Definition exchanges_chained (log : list Event) : Prop :=
  snd (fold_left chain_step log (0%float, 0, True)).

(** Reading a log from its start with the problem of the latest solve not
    yet followed by an exchange: each call to [advance] must follow a solve
    that used the step and the previous field the call is made with, with
    the boundary value and the source term at the end of that step. *)
Definition pair_step (s : option Problem * Prop) (ev : Event) : option Problem * Prop :=
  match ev with
  | EvSolve pb => (Some pb, snd s)
  | EvAdvance _ _ u_n t dt _ _ =>
      (None,
       snd s /\ match fst s with
                | Some pb =>
                    p_dt pb = dt /\ p_u_n pb = u_n
                    /\ p_u_D pb = Expr_u_D alpha beta gamma (t + dt)
                    /\ p_f pb = Expr_f alpha beta gamma (t + dt)
                | None => False
                end)
  | _ => s
  end.

Definition exchanges_follow_solves (log : list Event) : Prop :=
  snd (fold_left pair_step log (None, True)).

(** The output files opened by a log, with their names. *)
Definition opened (log : list Event) : list (OutFile * string) :=
  ev ← log; match ev with EvFile g name => [(g, name)] | _ => [] end.

(** The reference collaborators of a running coupling, with the residual
    that is nonzero in the interior: the Dirichlet participant, and the state
    in which it enters the loop. *)
Definition inconsistent_world : World Replay :=
  set_assemble (reference_world two_sub_steps 0.5)
    (fun F => match F with
              | F_known_u_form _ u_np1 _ _ _ => u_np1
              | v_ds V => reference_area V
              end).
Definition inconsistent_cfg : Config :=
  configure (W := inconsistent_world) default_dirichlet DIRICHLET.
Definition inconsistent_state0 : State Replay :=
  match start (W := inconsistent_world) inconsistent_cfg [] with
  | inr (st, _) => st
  | inl _ => mkState 0 0 0 0 0 [] [] [] (mkReplay [] 0 "")
  end.

(** The Neumann participant of a coupling of one window and one step. *)
Definition one_step_world : World Replay :=
  reference_world [mkAdvance 1 1 true 1]%float 1.
Definition one_step_cfg : Config :=
  configure (W := one_step_world) default_neumann NEUMANN.
Definition one_step_state0 : State Replay :=
  match start (W := one_step_world) one_step_cfg [] with
  | inr (st, _) => st
  | inl _ => mkState 0 0 0 0 0 [] [] [] (mkReplay [] 0 "")
  end.
Definition one_step_pass1 : State Replay * list Event :=
  match loop_body (W := one_step_world) one_step_cfg one_step_state0 [] with
  | inr p => p
  | inl _ => (one_step_state0, [])
  end.

(** Collaborators whose boundary measure is not a number at one degree of
    freedom of the small mesh, and a residual form that is consistent with
    the measure elsewhere. *)
Definition nan_measure_world : World Replay :=
  set_assemble (reference_world [] 1)
    (fun F => match F with
              | F_known_u_form _ u_np1 _ _ _ => u_np1
              | v_ds V => <[1%nat := nan]> (reference_area V)
              end).
Definition small_F0 : Form :=
  F_known_u_form small_V [1; 2; 3; 4; 0; 6; 7; 8; 9]%float 1%float [] (Expr_f 3 1.3 0 0).

(** * Properties *)

(** ** Facts about binary64 comparison and subtraction *)

Lemma SFcompare_antisym (x y : spec_float) :
  SFcompare y x = option_map CompOpp (SFcompare x y).
Proof.
  destruct x as [sx|sx| |sx mx ex], y as [sy|sy| |sy my ey];
    try destruct sx; try destruct sy; try reflexivity; cbn [SFcompare option_map];
    rewrite (Z.compare_antisym ex ey);
    destruct (ex ?= ey)%Z; cbn; try reflexivity;
    rewrite (Pos.compare_cont_antisym mx my Eq); cbn;
    now rewrite ?CompOpp_involutive.
Qed.

Lemma SFcompare_refl (x : spec_float) :
  SFcompare x x = match x with S754_nan => None | _ => Some Eq end.
Proof.
  destruct x as [s|s| |s m e]; try destruct s; cbn; try reflexivity;
    rewrite Z.compare_refl, Pos.compare_cont_refl; reflexivity.
Qed.

Lemma ltb_irrefl (x : float) : (x <? x)%float = false.
Proof.
  rewrite FloatAxioms.ltb_spec. unfold SFltb. rewrite SFcompare_refl.
  now destruct (Prim2SF x).
Qed.

Lemma leb_not_gt (x y : float) : (x <=? y)%float = true -> (y <? x)%float = false.
Proof.
  rewrite FloatAxioms.leb_spec, FloatAxioms.ltb_spec. unfold SFleb, SFltb.
  rewrite (SFcompare_antisym (Prim2SF x) (Prim2SF y)).
  now destruct (SFcompare (Prim2SF x) (Prim2SF y)) as [[]|].
Qed.

Lemma is_nan_spec (x : float) : is_nan x = true -> Prim2SF x = S754_nan.
Proof.
  unfold is_nan. rewrite FloatAxioms.eqb_spec. unfold SFeqb. rewrite SFcompare_refl.
  now destruct (Prim2SF x).
Qed.

Lemma ltb_nan_r (x y : float) : is_nan x = true -> (y <? x)%float = false.
Proof.
  intros Hnan. rewrite FloatAxioms.ltb_spec, (is_nan_spec x Hnan). unfold SFltb.
  now destruct (Prim2SF y).
Qed.

(** The step chosen by [np.min] is never above the negotiated one. *)
Lemma np_min2_not_above (a b : float) : (b <? np_min2 a b)%float = false.
Proof.
  unfold np_min2.
  destruct (a <=? b)%float eqn:Hle; cbn [orb].
  - now apply leb_not_gt.
  - destruct (is_nan a) eqn:Hnan.
    + now apply ltb_nan_r.
    + apply ltb_irrefl.
Qed.

Lemma ltb_leb (x y : float) : (x <? y)%float = true -> (x <=? y)%float = true.
Proof.
  rewrite FloatAxioms.ltb_spec, FloatAxioms.leb_spec. unfold SFltb, SFleb.
  now destruct (SFcompare (Prim2SF x) (Prim2SF y)) as [[]|].
Qed.

Lemma is_nan_of_spec (x : float) : Prim2SF x = S754_nan -> is_nan x = true.
Proof.
  intros Hx. unfold is_nan. rewrite FloatAxioms.eqb_spec, Hx. reflexivity.
Qed.

Lemma leb_nan_r (x y : float) : is_nan y = true -> (x <=? y)%float = false.
Proof.
  intros Hy%is_nan_spec. rewrite FloatAxioms.leb_spec, Hy. unfold SFleb.
  now destruct (Prim2SF x).
Qed.

(** The minimum numpy takes is one of the two numbers, is above neither, and
    is NaN as soon as one of them is. *)
Lemma np_min2_spec (a b : float) :
  (np_min2 a b = a \/ np_min2 a b = b)
  /\ (a <? np_min2 a b)%float = false
  /\ (b <? np_min2 a b)%float = false
  /\ (is_nan a = true \/ is_nan b = true -> is_nan (np_min2 a b) = true).
Proof.
  split; [|split; [|split]].
  - unfold np_min2. destruct (_ || _)%bool; auto.
  - unfold np_min2. destruct (a <=? b)%float eqn:Hle; cbn [orb].
    + apply ltb_irrefl.
    + destruct (is_nan a); [apply ltb_irrefl|].
      destruct (a <? b)%float eqn:Hlt; [|reflexivity].
      apply ltb_leb in Hlt. congruence.
  - apply np_min2_not_above.
  - unfold np_min2. intros [Ha|Hb].
    + rewrite Ha, orb_true_r. exact Ha.
    + rewrite (leb_nan_r a b Hb). cbn [orb].
      destruct (is_nan a) eqn:Ha; assumption.
Qed.

(** Two numbers neither of which is NaN are comparable. *)
Lemma leb_total (x y : float) :
  is_nan x = false -> is_nan y = false ->
  (x <=? y)%float = false -> (y <=? x)%float = true.
Proof.
  intros Hx Hy. rewrite !FloatAxioms.leb_spec. unfold SFleb.
  rewrite (SFcompare_antisym (Prim2SF x) (Prim2SF y)).
  destruct (Prim2SF x) as [sx|sx| |sx mx ex] eqn:Ex;
    [| |now rewrite (is_nan_of_spec x Ex) in Hx|];
    (destruct (Prim2SF y) as [sy|sy| |sy my ey] eqn:Ey;
       [| |now rewrite (is_nan_of_spec y Ey) in Hy|]);
    match goal with
    | |- context [SFcompare ?a ?b] => destruct (SFcompare a b) as [[]|] eqn:Hc
    end; cbn; try congruence;
    destruct sx; try destruct sy; cbn in Hc; try discriminate;
    destruct (_ ?= _)%Z; discriminate.
Qed.

Lemma leb_refl (x : float) : is_nan x = false -> (x <=? x)%float = true.
Proof.
  intros Hx. rewrite FloatAxioms.leb_spec. unfold SFleb. rewrite SFcompare_refl.
  destruct (Prim2SF x) eqn:Ex; try reflexivity.
  now rewrite (is_nan_of_spec x Ex) in Hx.
Qed.

(** When neither number is NaN the minimum numpy takes is below both. *)
Lemma np_min2_below (a b : float) :
  is_nan a = false -> is_nan b = false ->
  (np_min2 a b <=? a)%float = true /\ (np_min2 a b <=? b)%float = true.
Proof.
  intros Ha Hb. unfold np_min2. rewrite Ha, orb_false_r.
  destruct (a <=? b)%float eqn:Hle.
  - split; [now apply leb_refl|assumption].
  - split; [now apply leb_total|now apply leb_refl].
Qed.

Lemma is_finite_spec (x : float) :
  is_finite x = true ->
  match Prim2SF x with S754_zero _ | S754_finite _ _ _ => True | _ => False end.
Proof.
  unfold is_finite, is_infinity, is_nan.
  rewrite !FloatAxioms.eqb_spec, abs_spec. unfold SFeqb. rewrite SFcompare_refl.
  destruct (Prim2SF x) as [s|s| |s m e]; cbn; try easy.
Qed.

Lemma sub_diag_finite (x : float) : is_finite x = true -> (x - x)%float = 0%float.
Proof.
  intros Hfin. apply is_finite_spec in Hfin.
  apply Prim2SF_inj. rewrite sub_spec.
  destruct (Prim2SF x) as [s|s| |s m e]; try easy.
  - now destruct s.
  - unfold SF64sub, SFsub. rewrite Z.sub_diag. reflexivity.
Qed.

(** ** Geometry predicates *)

Section GeometryFacts.
Context {A : Type} {W : World A}.

Lemma CouplingBoundary_inside_eq (x : Point) (on_boundary : bool) :
  CouplingBoundary_inside x on_boundary
  = (on_boundary && near (x0 x) x_coupling 1e-14%float
     && negb (near (x1 x) y_bottom 1e-14%float)
     && negb (near (x1 x) y_top 1e-14%float))%bool.
Proof. unfold CouplingBoundary_inside. now destruct (_ && _ && _ && _)%bool. Qed.

Lemma remaining_boundary_eq (x : Point) (on_boundary : bool) :
  remaining_boundary x on_boundary
  = (on_boundary && negb (CouplingBoundary_inside x on_boundary))%bool.
Proof.
  unfold remaining_boundary, ComplementaryBoundary_inside, coupling_boundary.
  cbn [complement]. now destruct (_ && _)%bool.
Qed.

(** C5. [CouplingBoundary.inside] holds exactly for boundary points whose
    first coordinate is [near] the interface coordinate and whose second
    coordinate is [near] neither [y_bottom] nor [y_top]; the complementary
    predicate holds exactly for boundary points where it fails; so on the
    boundary exactly one of the two holds, and off it neither does. *)
Theorem boundary_predicates_partition (x : Point) (on_boundary : bool) :
  (CouplingBoundary_inside x on_boundary = true <->
     on_boundary = true
     /\ near (x0 x) x_coupling 1e-14%float = true
     /\ near (x1 x) y_bottom 1e-14%float = false
     /\ near (x1 x) y_top 1e-14%float = false)
  /\ (remaining_boundary x on_boundary = true <->
        on_boundary = true /\ CouplingBoundary_inside x on_boundary = false)
  /\ xorb (CouplingBoundary_inside x true) (remaining_boundary x true) = true
  /\ CouplingBoundary_inside x false = false
  /\ remaining_boundary x false = false.
Proof.
  rewrite !remaining_boundary_eq, !CouplingBoundary_inside_eq.
  destruct on_boundary,
    (near (x0 x) x_coupling 1e-14%float),
    (near (x1 x) y_bottom 1e-14%float),
    (near (x1 x) y_top 1e-14%float); cbn; intuition congruence.
Qed.

End GeometryFacts.

(** With DOLFIN's [near]: a point in the middle of the interface, its two
    corners, and a point of the outer boundary. *)
Example interface_midpoint :
  CouplingBoundary_inside (W := reference_world [] 1) (mkPoint 1.5 0.5) true = true.
Proof. vm_compute. reflexivity. Qed.

Example interface_corners :
  CouplingBoundary_inside (W := reference_world [] 1) (mkPoint 1.5 0) true = false
  /\ CouplingBoundary_inside (W := reference_world [] 1) (mkPoint 1.5 1) true = false
  /\ remaining_boundary (W := reference_world [] 1) (mkPoint 1.5 0) true = true
  /\ remaining_boundary (W := reference_world [] 1) (mkPoint 1.5 1) true = true.
Proof. vm_compute. repeat split. Qed.

Example outer_boundary_point :
  CouplingBoundary_inside (W := reference_world [] 1) (mkPoint 0 0.5) true = false
  /\ remaining_boundary (W := reference_world [] 1) (mkPoint 0 0.5) true = true.
Proof. vm_compute. repeat split. Qed.

(** ** Flux evaluator *)

Section FluxFacts.
Context {A : Type} {W : World A}.
Variables fluxes_vector area : list float.
Hypothesis same_length : length fluxes_vector = length area.

Lemma flux_entry_spec (fluxes : Field) (i : nat) (a r : float) :
  area !! i = Some a -> fluxes_vector !! i = Some r -> (i < length fluxes)%nat ->
  flux_entry fluxes_vector area fluxes i
  = if residual_consistent r a then ret (<[i := scaled_flux r a]> fluxes)
    else raise AssertionError.
Proof.
  intros Ha Hr Hi.
  unfold flux_entry, getitem, setitem, residual_consistent, scaled_flux.
  rewrite Ha, Hr. cbn [bind ret].
  assert ((i <? length fluxes)%nat = true) as -> by now apply Nat.ltb_lt.
  destruct (a =? 0)%float; cbn [negb orb]; [|reflexivity].
  now destruct (abs r <? flux_tolerance)%float.
Qed.

(** The loop over the degrees of freedom [start, start + n): it raises the
    assertion error when one of them fails the check, and otherwise rewrites
    exactly these entries. *)
Lemma flux_loop_cases (n : nat) : forall (start : nat) (fluxes : Field),
  (start + n <= length area)%nat -> length fluxes = length area ->
  ((exists i a r, (start <= i < start + n)%nat /\ area !! i = Some a
       /\ fluxes_vector !! i = Some r /\ residual_consistent r a = false)
   /\ for_range_from start n (flux_entry fluxes_vector area) fluxes = raise AssertionError)
  \/
  ((forall i a r, (start <= i < start + n)%nat -> area !! i = Some a ->
       fluxes_vector !! i = Some r -> residual_consistent r a = true)
   /\ exists out, for_range_from start n (flux_entry fluxes_vector area) fluxes = ret out
       /\ length out = length area
       /\ (forall j, (j < start \/ start + n <= j)%nat -> out !! j = fluxes !! j)
       /\ (forall j a r, (start <= j < start + n)%nat -> area !! j = Some a ->
             fluxes_vector !! j = Some r -> out !! j = Some (scaled_flux r a))).
Proof.
  induction n as [|n IH]; intros start fluxes Hrange Hlen.
  - right. split; [intros; lia|].
    exists fluxes. cbn. repeat split; [assumption|intros; lia].
  - destruct (lookup_lt_is_Some_2 area start ltac:(lia)) as [a Ha].
    destruct (lookup_lt_is_Some_2 fluxes_vector start ltac:(lia)) as [r Hr].
    cbn [for_range_from].
    rewrite (flux_entry_spec fluxes start a r Ha Hr ltac:(lia)).
    destruct (residual_consistent r a) eqn:Hcons; cbn [bind ret raise].
    + assert (length (<[start := scaled_flux r a]> fluxes) = length area) as Hlen1
        by now rewrite length_insert.
      assert (S start + n <= length area)%nat as Hrange1 by lia.
      destruct (IH (S start) (<[start := scaled_flux r a]> fluxes) Hrange1 Hlen1) as
        [[(i & a' & r' & Hi & Ha' & Hr' & Hbad) Hraise]
        |[Hall (out & Hout & Hlen' & Hframe & Hnew)]].
      * left. split; [|assumption].
        exists i, a', r'. repeat split; try assumption; lia.
      * right. split.
        { intros i a' r' Hi Ha' Hr'.
          destruct (decide (i = start)) as [->|Hne].
          - congruence.
          - apply (Hall i a' r'); [lia|assumption..]. }
        exists out. repeat split; [assumption..| |].
        { intros j Hj. rewrite Hframe by lia.
          apply list_lookup_insert_ne. lia. }
        { intros j a' r' Hj Ha' Hr'.
          destruct (decide (j = start)) as [->|Hne].
          - rewrite Hframe by lia.
            rewrite list_lookup_insert_eq by lia. congruence.
          - apply Hnew; [lia|assumption..]. }
    + left. split; [|reflexivity].
      exists start, a, r. repeat split; try assumption; lia.
Qed.

End FluxFacts.

(** C2. With the assembled residual and the boundary measure both of the
    dimension of the function space, [fluxes_from_temperature_full_domain]
    fails only by its assertion, and does so exactly when some degree of
    freedom has zero measure and a residual whose absolute value is not
    below 1e-10; otherwise it returns a field that holds, at every degree of
    freedom, the residual divided by the measure where the measure is
    nonzero and the residual itself where it is zero. *)
Theorem flux_evaluator_scales_or_aborts {A : Type} {W : World A}
    (F : Form) (V : FunctionSpaceT) :
  length (assemble F) = dim V ->
  length (assemble (v_ds V)) = dim V ->
  let residual := assemble F in
  let measure := assemble (v_ds V) in
  let violation := exists i a r, measure !! i = Some a /\ residual !! i = Some r
                     /\ (a =? 0)%float = true /\ (abs r <? 1e-10)%float = false in
  (fluxes_from_temperature_full_domain F V = raise AssertionError <-> violation)
  /\ (forall e, fluxes_from_temperature_full_domain F V = raise e -> e = AssertionError)
  /\ (~ violation -> exists fluxes, fluxes_from_temperature_full_domain F V = ret fluxes)
  /\ (forall fluxes, fluxes_from_temperature_full_domain F V = ret fluxes ->
        length fluxes = dim V
        /\ forall i a r, measure !! i = Some a -> residual !! i = Some r ->
             fluxes !! i = Some (if negb (a =? 0)%float then (r / a)%float else r)).
Proof.
  intros HlenF Hlena residual measure violation.
  assert (Hbad : forall (i : nat) a r, residual_consistent r a = false <->
            (a =? 0)%float = true /\ (abs r <? 1e-10)%float = false).
  { intros _ a r. unfold residual_consistent, flux_tolerance.
    destruct (a =? 0)%float, (abs r <? 1e-10)%float; cbn; intuition congruence. }
  unfold fluxes_from_temperature_full_domain, for_range.
  fold residual measure.
  assert (length residual = length measure) as Hsame
    by (unfold residual, measure; congruence).
  assert (length (replicate (dim V) 0%float) = length measure) as Hzeros
    by (rewrite length_replicate; unfold measure; congruence).
  destruct (flux_loop_cases residual measure Hsame
              (length measure) 0 (replicate (dim V) 0%float) (Nat.le_refl _) Hzeros)
    as [[(i & a & r & Hi & Ha & Hr & Hcons) Hraise]
       |[Hall (out & Hout & Hlen & _ & Hnew)]].
  - assert (violation) as Hv.
    { exists i, a, r. apply (Hbad i) in Hcons. tauto. }
    rewrite Hraise. split; [|split; [|split]].
    + split; [intros _; exact Hv | reflexivity].
    + intros e [= <-]. reflexivity.
    + intros Hno. contradiction.
    + intros fluxes [=].
  - assert (~ violation) as Hv.
    { intros (i & a & r & Ha & Hr & Hz & Hnot).
      assert (residual_consistent r a = false) as Hf by (apply (Hbad i); tauto).
      rewrite (Hall i a r) in Hf; [discriminate| |assumption..].
      apply lookup_lt_Some in Ha. lia. }
    rewrite Hout. split; [|split; [|split]].
    + split; [intros [=] | intros Hviol; contradiction].
    + intros e [=].
    + intros _. exists out. reflexivity.
    + intros fluxes [= <-]. split.
      * unfold measure in Hlen. congruence.
      * intros i a r Ha Hr.
        rewrite (Hnew i a r); [reflexivity| |assumption..].
        apply lookup_lt_Some in Ha. lia.
Qed.

Lemma flux_evaluator_witness :
  length (assemble (World := reference_world [] 1) small_F)
    = dim (World := reference_world [] 1) small_V
  /\ fluxes_from_temperature_full_domain (W := reference_world [] 1) small_F small_V
     = ret [1; 2; 3; 4; 0; 6; 7; 8; 9]%float
  /\ forall e,
       fluxes_from_temperature_full_domain (W := reference_world [] 1) small_F small_V
         = raise e -> e = AssertionError.
Proof.
  split; [reflexivity|]. split; [vm_compute; reflexivity|].
  apply (flux_evaluator_scales_or_aborts (W := reference_world [] 1) small_F small_V);
    reflexivity.
Defined.

(** A nonzero residual at the interior degree of freedom of the small mesh
    makes the evaluator stop with the assertion error. *)
Example flux_evaluator_aborts :
  fluxes_from_temperature_full_domain (W := raw_residual_world) small_F small_V
  = raise AssertionError.
Proof. vm_compute. reflexivity. Qed.

(** ** The script only appends to its log *)

Lemma extends_pure {X} (x : X) : extends (pure x).
Proof. intros log. cbn. now rewrite app_nil_r. Qed.

Lemma extends_throw {X} (e : exn) : extends (@throw X e).
Proof. intros log. cbn. now rewrite app_nil_r. Qed.

Lemma extends_emit (ev : Event) : extends (emit ev).
Proof. intros log. reflexivity. Qed.

Lemma extends_lift {X} (m : result X) : extends (lift m).
Proof. intros log. destruct m; cbn; now rewrite app_nil_r. Qed.

Lemma extends_sbind {X Y} (m : Script X) (k : X -> Script Y) :
  extends m -> (forall x, extends (k x)) -> extends (sbind m k).
Proof.
  intros Hm Hk log. unfold sbind. rewrite (Hm log).
  destruct (m []) as [[e l]|[x l]]; cbn; [reflexivity|].
  rewrite (Hk x (log ++ l)), (Hk x l).
  destruct (k x []) as [[e l']|[y l']]; cbn; now rewrite app_assoc.
Qed.

Lemma extends_if {X} (b : bool) (m1 m2 : Script X) :
  extends m1 -> extends m2 -> extends (if b then m1 else m2).
Proof. now destruct b. Qed.

Create HintDb script discriminated.
#[local] Hint Resolve extends_pure extends_throw extends_emit extends_lift
  extends_if : script.
#[local] Hint Extern 2 (extends (sbind _ _)) =>
  apply extends_sbind; [|intros ?] : script.
#[local] Hint Extern 2 (extends (match ?p with DIRICHLET => _ | NEUMANN => _ end)) =>
  destruct p : script.

(** Unfolds a piece of script into the function on logs it stands for. *)
Ltac unfold_script :=
  unfold loop_body, start, call_advance, call_initialize, write,
    sbind, emit, lift, pure.

Section ScriptFacts.
Context {A : Type} {W : World A}.

Lemma extends_call_advance (a : A) (w u un : Field) (t dt : float) (n : Z) :
  extends (call_advance a w u un t dt n).
Proof. unfold call_advance. auto with script. Qed.

Lemma extends_call_initialize (a : A) (r w un : Field) (m : Mesh) :
  extends (call_initialize a r w un m).
Proof. unfold call_initialize. auto with script. Qed.

Lemma extends_start (cfg : Config) : extends (start cfg).
Proof.
  unfold start, write.
  auto 20 using extends_call_initialize with script.
Qed.

Lemma extends_loop_body (cfg : Config) (st : State A) : extends (loop_body cfg st).
Proof.
  unfold loop_body, write.
  auto 20 using extends_call_advance with script.
Qed.

End ScriptFacts.

(** ** One pass through the loop body *)

Section BodyFacts.
Context {A : Type} {W : World A}.

Lemma time_loop_prefix (cfg : Config) (fuel : nat) : forall (st : State A) (log : list Event),
  time_loop fuel cfg st log = outcome_with_prefix log (time_loop fuel cfg st []).
Proof.
  induction fuel as [|fuel IH]; intros st log; cbn [time_loop].
  - destruct (is_coupling_ongoing (precice st)); cbn; now rewrite ?app_nil_r.
  - destruct (is_coupling_ongoing (precice st)); [|reflexivity].
    rewrite (extends_loop_body cfg st log).
    destruct (loop_body cfg st []) as [[e l]|[st' l]]; cbn.
    + reflexivity.
    + rewrite (IH st' (log ++ l)), (IH st' l).
      destruct (time_loop fuel cfg st' []); cbn; now rewrite app_assoc.
Qed.

(** What the body did when it came to its end: the field handed to
    [advance] is the flux on the Dirichlet side and the solved field on the
    Neumann side; the new state is read off the answer of [advance]. *)
Lemma loop_body_ok (cfg : Config) (st st' : State A) (l : list Event) :
  loop_body cfg st [] = inr (st', l) ->
  let V := cfg_V cfg in
  let pb := current_problem cfg st in
  let u := solve (precice st) pb in
  exists w,
    match cfg_problem cfg with
    | DIRICHLET =>
        fluxes_from_temperature_full_domain
          (F_known_u_form V u (dt st) (u_n st) (f (f_t st))) V = ret w
    | NEUMANN => w = u
    end
    /\ let adv := advance (precice st) w u (u_n st) (t st) (dt st) (n st) in
       let r := snd adv in
       let dt' := np_min2 (fenics_dt (fst (fst adv))) (adv_dt r) in
       st' = mkState (adv_t r) (adv_n r) dt' (adv_t r + dt')%float (adv_t r + dt')%float
               (snd (fst adv)) u (u_ref st') (fst (fst adv))
       /\ exists error_pointwise,
            l = EvSolve pb :: EvAdvance w u (u_n st) (t st) (dt st) (n st) r
                :: (if adv_complete r
                    then [EvWrite temperature_out (snd (fst adv));
                          EvWrite ref_out (interpolate (u_D (u_D_t st)) V);
                          EvWrite error_out error_pointwise]
                    else []).
Proof.
  cbv zeta. unfold_script. cbn.
  destruct (cfg_problem cfg).
  - destruct (fluxes_from_temperature_full_domain _ _) as [e|w]; [discriminate|].
    cbn. destruct (adv_complete _) eqn:Hc.
    + destruct (compute_errors _ _ _ _) as [e|[err ep]]; [discriminate|].
      cbn. intros [= <- <-]. exists w. rewrite Hc. cbn. eauto.
    + intros [= <- <-]. exists w. rewrite Hc. cbn. eauto.
  - cbn. destruct (adv_complete _) eqn:Hc.
    + destruct (compute_errors _ _ _ _) as [e|[err ep]]; [discriminate|].
      cbn. intros [= <- <-]. eexists. split; [reflexivity|]. rewrite Hc. cbn. eauto.
    + intros [= <- <-]. eexists. split; [reflexivity|]. rewrite Hc. cbn.
      split; [reflexivity|]. now exists [].
Qed.

Lemma loop_body_raised (cfg : Config) (st : State A) (e : exn) (l : list Event) :
  loop_body cfg st [] = inl (e, l) ->
  let pb := current_problem cfg st in
  l = [EvSolve pb]
  \/ exists w u r, adv_complete r = true
       /\ l = [EvSolve pb; EvAdvance w u (u_n st) (t st) (dt st) (n st) r].
Proof.
  unfold_script. cbn.
  destruct (cfg_problem cfg).
  - destruct (fluxes_from_temperature_full_domain _ _) as [e'|w].
    + intros [= <- <-]. now left.
    + cbn. destruct (adv_complete _) eqn:Hc; [|discriminate].
      destruct (compute_errors _ _ _ _) as [e'|[err ep]]; [|discriminate].
      intros [= <- <-]. right. eauto.
  - cbn. destruct (adv_complete _) eqn:Hc; [|discriminate].
    destruct (compute_errors _ _ _ _) as [e'|[err ep]]; [|discriminate].
    intros [= <- <-]. right. eauto.
Qed.

End BodyFacts.

(** ** The start of the script *)

Section StartFacts.
Context {A : Type} {W : World A}.

(** The calls made before the loop, in order.  The temperature and the
    reference field written at the start are the same interpolation. *)
Lemma start_log (cfg : Config) :
  let V := cfg_V cfg in
  let temperature := interpolate (u_D 0) V in
  let flux := interpolate (f_N 0) V in
  exists name1 name2 name3,
    script_log (start cfg [])
    = [EvRectangleMesh (cfg_mesh cfg); EvFunctionSpace V;
       EvAdapter (adapter_config_filename cfg) (other_adapter_config_filename cfg);
       match cfg_problem cfg with
       | DIRICHLET => EvInitialize temperature flux temperature
       | NEUMANN => EvInitialize flux temperature temperature
       end;
       EvFile temperature_out name1; EvFile ref_out name2; EvFile error_out name3;
       EvWrite temperature_out temperature; EvWrite ref_out temperature]
      ++ match compute_errors temperature temperature V None with
         | inl _ => []
         | inr errors => [EvWrite error_out (snd errors)]
         end.
Proof.
  cbv zeta.
  unfold_script.
  destruct (cfg_problem cfg); cbn;
    destruct (compute_errors _ _ _ _) as [e|[err ep]]; cbn; eauto.
Qed.

Lemma main_log (fuel : nat) (args : Args) (problem : ProblemType) :
  resolve_problem args = ret problem ->
  exists rest,
    outcome_log (main fuel args) = script_log (start (configure args problem) []) ++ rest.
Proof.
  intros Hrole. unfold main. rewrite Hrole. unfold ret. cbv beta iota zeta.
  destruct (start (configure args problem) []) as [[e l]|[st l]]; cbn.
  - exists []. now rewrite app_nil_r.
  - rewrite time_loop_prefix.
    destruct (time_loop fuel (configure args problem) st []) as [st' l'|e l'|st' l'];
      cbn; eauto.
Qed.

(** A run whose role is resolved begins with the construction of the mesh. *)
Lemma main_log_head (fuel : nat) (args : Args) (problem : ProblemType) :
  resolve_problem args = ret problem ->
  exists rest,
    outcome_log (main fuel args)
    = EvRectangleMesh (cfg_mesh (configure args problem)) :: rest.
Proof.
  intros Hrole.
  destruct (main_log fuel args problem Hrole) as [rest ->].
  destruct (start_log (configure args problem)) as (n1 & n2 & n3 & ->).
  cbn. eauto.
Qed.

(** C6. With both role flags or with neither, the script raises the
    configuration error before any call to the collaborators (no mesh, no
    function space, no adapter); with exactly one flag the role is the one
    selected and the run goes on to build the mesh. *)
Theorem role_flags_validated (fuel : nat) (args : Args) :
  match dirichlet args, neumann args with
  | true, true => main fuel args = Raised (Exception both_roles_message) []
  | false, false => main fuel args = Raised (Exception no_role_message) []
  | true, false =>
      resolve_problem args = ret DIRICHLET
      /\ exists rest, outcome_log (main fuel args)
           = EvRectangleMesh (cfg_mesh (configure args DIRICHLET)) :: rest
  | false, true =>
      resolve_problem args = ret NEUMANN
      /\ exists rest, outcome_log (main fuel args)
           = EvRectangleMesh (cfg_mesh (configure args NEUMANN)) :: rest
  end.
Proof.
  destruct (dirichlet args) eqn:Hd, (neumann args) eqn:Hn.
  - unfold main, resolve_problem. now rewrite Hd, Hn.
  - assert (resolve_problem args = ret DIRICHLET) as Hrole
      by (unfold resolve_problem; now rewrite Hd, Hn).
    split; [assumption|]. now apply main_log_head.
  - assert (resolve_problem args = ret NEUMANN) as Hrole
      by (unfold resolve_problem; now rewrite Hd, Hn).
    split; [assumption|]. now apply main_log_head.
  - unfold main, resolve_problem. now rewrite Hd, Hn.
Qed.

(** C10. The Dirichlet participant meshes [0, 1.5] x [0, 1] with 30 x 10
    cells and the Neumann participant [1.5, 2] x [0, 1] with 10 x 10 cells;
    the interface is at [x_coupling = 1.5], not at 1; the two meshes have the
    same number of cells in y, different numbers in x and different widths. *)
Theorem participant_meshes (fuel : nat) (wr : Z * Z) (dT : float) (scheme : string) :
  let dirichlet_mesh := RectangleMesh (mkPoint 0 0) (mkPoint 1.5 1) 30 10 in
  let neumann_mesh := RectangleMesh (mkPoint 1.5 0) (mkPoint 2 1) 10 10 in
  (exists rest, outcome_log (main fuel (mkArgs true false wr dT scheme))
                = EvRectangleMesh dirichlet_mesh :: rest)
  /\ (exists rest, outcome_log (main fuel (mkArgs false true wr dT scheme))
                   = EvRectangleMesh neumann_mesh :: rest)
  /\ x_coupling = 1.5%float
  /\ (x_coupling =? 1)%float = false
  /\ x0 (mesh_p1 dirichlet_mesh) = x_coupling
  /\ x0 (mesh_p0 neumann_mesh) = x_coupling
  /\ mesh_ny dirichlet_mesh = mesh_ny neumann_mesh
  /\ mesh_nx dirichlet_mesh <> mesh_nx neumann_mesh
  /\ (x0 (mesh_p1 dirichlet_mesh) - x0 (mesh_p0 dirichlet_mesh))%float = 1.5%float
  /\ (x0 (mesh_p1 neumann_mesh) - x0 (mesh_p0 neumann_mesh))%float = 0.5%float.
Proof.
  cbv zeta. split; [|split].
  - apply (main_log_head fuel (mkArgs true false wr dT scheme) DIRICHLET). reflexivity.
  - apply (main_log_head fuel (mkArgs false true wr dT scheme) NEUMANN). reflexivity.
  - repeat split; try reflexivity. cbn. discriminate.
Qed.

End StartFacts.

Example both_flags_rejected :
  main (W := reference_world two_sub_steps 0.5) 5 both_flags
  = Raised (Exception both_roles_message) [].
Proof. reflexivity. Qed.

Example no_flag_rejected :
  main (W := reference_world two_sub_steps 0.5) 5
    (mkArgs false false (1, 1) 1%float "SERIAL_FIRST_DIRICHLET")
  = Raised (Exception no_role_message) [].
Proof. reflexivity. Qed.

(** ** Configuration paths *)

Lemma string_append_assoc (a b c : string) :
  ((a ++ b) ++ c = a ++ (b ++ c))%string.
Proof. induction a as [|x a IH]; cbn; [reflexivity|now rewrite IH]. Qed.

Lemma endswith_sep_app (a b : string) :
  endswith_sep (a ++ b) = if is_empty b then endswith_sep a else endswith_sep b.
Proof.
  induction a as [|c a IH]; cbn [String.append].
  - now destruct b.
  - destruct b as [|c' b].
    + cbn [is_empty] in *. cbn [endswith_sep]. rewrite IH.
      destruct a; reflexivity.
    + cbn [is_empty] in *. cbn [endswith_sep]. rewrite IH.
      destruct a; reflexivity.
Qed.

Lemma no_sep_endswith (s : string) : no_sep s = true -> endswith_sep s = false.
Proof.
  induction s as [|c s IH]; [reflexivity|].
  cbn [no_sep endswith_sep]. intros [Hc Hs]%andb_prop.
  destruct s; [|now apply IH].
  now destruct (Ascii.eqb c "/").
Qed.

Lemma no_sep_app (a b : string) : no_sep (a ++ b) = (no_sep a && no_sep b)%bool.
Proof.
  induction a as [|c a IH]; [reflexivity|].
  cbn [String.append no_sep]. rewrite IH. now rewrite andb_assoc.
Qed.

Lemma no_sep_uint (d : Decimal.uint) : no_sep (NilEmpty.string_of_uint d) = true.
Proof. induction d; cbn; auto. Qed.

Lemma no_sep_int_str (z : Z) : no_sep (int_str z) = true.
Proof.
  unfold int_str, NilZero.string_of_int, NilZero.string_of_uint.
  destruct (Z.to_int z) as [d|d]; destruct d; cbn -[NilEmpty.string_of_uint];
    try reflexivity; apply no_sep_uint.
Qed.

(** Both sides of an equation between concatenations, with the literals
    unfolded and the concatenations nested to the right. *)
Ltac normalize_append :=
  cbn [String.append];
  repeat (rewrite string_append_assoc; cbn [String.append]).

Section PathFacts.
Context {A : Type} {W : World A}.

Lemma wr_tag_no_sep (args : Args) : no_sep (wr_tag args) = true.
Proof.
  unfold wr_tag. cbn [String.append no_sep].
  now rewrite no_sep_app, !no_sep_int_str.
Qed.

(** The configuration is a function of the waveform orders, the window size
    and the scheme name (and of the role). *)
Lemma configure_depends_on_three_flags (args' args : Args) (problem : ProblemType) :
  waveform args' = waveform args -> window_size args' = window_size args ->
  coupling_scheme args' = coupling_scheme args ->
  configure args' problem = configure args problem.
Proof.
  intros Hwr Hdt Hcpl.
  unfold configure, wr_tag, window_size_tag, coupling_scheme_tag.
  now rewrite Hwr, Hdt, Hcpl.
Qed.

(** The directory of the configuration files, when the scheme name does not
    start with the separator and the printed window size does not end with it. *)
Lemma configs_path_eq (args : Args) (problem : ProblemType) :
  String.prefix "/" (coupling_scheme args) = false ->
  endswith_sep (float_str (window_size args)) = false ->
  configs_path (configure args problem)
  = ("experiments/" ++ wr_tag args ++ "/" ++ window_size_tag args ++ "/"
       ++ coupling_scheme args)%string.
Proof.
  intros Habs Hwin.
  assert (configs_path (configure args problem)
          = os_path_join "experiments"
              [wr_tag args; window_size_tag args; coupling_scheme_tag args]) as ->
    by now destruct problem.
  unfold os_path_join, coupling_scheme_tag. cbn [fold_left].
  assert (join_step "experiments" (wr_tag args) = "experiments/" ++ wr_tag args)%string
    as -> by reflexivity.
  assert (join_step ("experiments/" ++ wr_tag args) (window_size_tag args)
          = "experiments/" ++ wr_tag args ++ "/" ++ window_size_tag args)%string as ->.
  { unfold join_step.
    assert (String.prefix "/" (window_size_tag args) = false) as -> by reflexivity.
    assert (endswith_sep ("experiments/" ++ wr_tag args) = false) as ->.
    { rewrite endswith_sep_app.
      assert (is_empty (wr_tag args) = false) as -> by reflexivity.
      apply no_sep_endswith, wr_tag_no_sep. }
    cbn [is_empty String.append orb]. reflexivity. }
  unfold join_step. rewrite Habs.
  assert (endswith_sep ("experiments/" ++ wr_tag args ++ "/" ++ window_size_tag args)
          = false) as ->.
  { rewrite !endswith_sep_app.
    assert (is_empty (wr_tag args ++ "/" ++ window_size_tag args) = false) as ->
      by reflexivity.
    assert (is_empty ("/" ++ window_size_tag args) = false) as -> by reflexivity.
    assert (is_empty (window_size_tag args) = false) as -> by reflexivity.
    unfold window_size_tag. rewrite endswith_sep_app, Hwin.
    now destruct (is_empty _). }
  cbn [is_empty String.append orb].
  now rewrite !string_append_assoc.
Qed.

(** C7, as the code has it. When the scheme name is not empty and neither
    starts nor ends with the separator, and the printed window size does not
    end with it, both paths are
    [experiments/WR<wr1><wr2>/dT<window>/<scheme>/precice-adapter-config-{D,N}.json]:
    the D file is the own path of the Dirichlet role and the partner path of
    the Neumann role, the N file the other way round. *)
Theorem config_paths_follow_format (args : Args) :
  is_empty (coupling_scheme args) = false ->
  String.prefix "/" (coupling_scheme args) = false ->
  endswith_sep (coupling_scheme args) = false ->
  endswith_sep (float_str (window_size args)) = false ->
  adapter_config_filename (configure args DIRICHLET) = spec_config_path args "D"
  /\ other_adapter_config_filename (configure args DIRICHLET) = spec_config_path args "N"
  /\ adapter_config_filename (configure args NEUMANN) = spec_config_path args "N"
  /\ other_adapter_config_filename (configure args NEUMANN) = spec_config_path args "D"
  /\ forall args',
       waveform args' = waveform args -> window_size args' = window_size args ->
       coupling_scheme args' = coupling_scheme args ->
       forall problem,
         adapter_config_filename (configure args' problem)
         = adapter_config_filename (configure args problem)
         /\ other_adapter_config_filename (configure args' problem)
            = other_adapter_config_filename (configure args problem).
Proof.
  intros Hne Habs Hend Hwin.
  pose proof (configs_path_eq args DIRICHLET Habs Hwin) as Hdir.
  assert (forall file : string,
            String.prefix "/" file = false ->
            os_path_join (configs_path (configure args DIRICHLET)) [file]
            = ("experiments/" ++ wr_tag args ++ "/" ++ window_size_tag args ++ "/"
                 ++ coupling_scheme args ++ "/" ++ file)%string) as Hjoin.
  { intros file Hfile. rewrite Hdir.
    unfold os_path_join, join_step. cbn [fold_left]. rewrite Hfile.
    assert (endswith_sep ("experiments/" ++ wr_tag args ++ "/" ++ window_size_tag args
                            ++ "/" ++ coupling_scheme args) = false) as ->.
    { rewrite !endswith_sep_app, Hne.
      assert (is_empty (wr_tag args ++ "/" ++ window_size_tag args ++ "/"
                          ++ coupling_scheme args) = false) as -> by reflexivity.
      assert (is_empty ("/" ++ window_size_tag args ++ "/" ++ coupling_scheme args)
              = false) as -> by reflexivity.
      assert (is_empty (window_size_tag args ++ "/" ++ coupling_scheme args) = false)
        as -> by reflexivity.
      assert (is_empty ("/" ++ coupling_scheme args) = false) as -> by reflexivity.
      exact Hend. }
    cbn [is_empty String.append orb].
    repeat (rewrite string_append_assoc; cbn [String.append]). reflexivity. }
  assert (forall suffix,
            ("experiments/" ++ wr_tag args ++ "/" ++ window_size_tag args ++ "/"
               ++ coupling_scheme args ++ "/"
               ++ "precice-adapter-config-" ++ suffix ++ ".json")%string
            = spec_config_path args suffix) as Hspec.
  { intros suffix. unfold spec_config_path, wr_tag, window_size_tag.
    normalize_append. reflexivity. }
  split; [|split; [|split; [|split]]].
  - rewrite <- Hspec. apply (Hjoin "precice-adapter-config-D.json"%string eq_refl).
  - rewrite <- Hspec. apply (Hjoin "precice-adapter-config-N.json"%string eq_refl).
  - rewrite <- Hspec. apply (Hjoin "precice-adapter-config-N.json"%string eq_refl).
  - rewrite <- Hspec. apply (Hjoin "precice-adapter-config-D.json"%string eq_refl).
  - intros args' Hwr Hdt Hcpl problem.
    now rewrite (configure_depends_on_three_flags args' args problem Hwr Hdt Hcpl).
Qed.

End PathFacts.

Lemma config_paths_witness :
  adapter_config_filename (configure (W := reference_world [] 1) default_dirichlet DIRICHLET)
  = "experiments/WR11/dT1.0/SERIAL_FIRST_DIRICHLET/precice-adapter-config-D.json"%string
  /\ other_adapter_config_filename
       (configure (W := reference_world [] 1) default_dirichlet DIRICHLET)
     = "experiments/WR11/dT1.0/SERIAL_FIRST_DIRICHLET/precice-adapter-config-N.json"%string.
Proof.
  destruct (config_paths_follow_format (W := reference_world [] 1) default_dirichlet)
    as (Hown & Hother & _); try reflexivity.
  rewrite Hown, Hother. split; reflexivity.
Defined.

(** A scheme name that is an absolute path replaces the directories joined
    before it: the own path is not the one of the format. *)
Lemma absolute_scheme_escapes_format :
  adapter_config_filename (configure (W := reference_world [] 1) absolute_scheme DIRICHLET)
  = "/tmp/precice-adapter-config-D.json"%string
  /\ spec_config_path (W := reference_world [] 1) absolute_scheme "D"
     = "experiments/WR11/dT1.0//tmp/precice-adapter-config-D.json"%string
  /\ String.eqb
       (adapter_config_filename
          (configure (W := reference_world [] 1) absolute_scheme DIRICHLET))
       (spec_config_path (W := reference_world [] 1) absolute_scheme "D")
     = false.
Proof. repeat split; vm_compute; reflexivity. Qed.

(** ** Output writes and completed windows *)

Lemma count_app (p : Event -> bool) (l l' : list Event) :
  count p (l ++ l') = (count p l + count p l')%nat.
Proof. induction l as [|ev l IH]; cbn; [reflexivity|]. rewrite IH. lia. Qed.

Section OutputFacts.
Context {A : Type} {W : World A}.

(** The events of one pass keep the scan of the log sound, whatever came
    before, and count one write per file for a completed window. *)
Lemma loop_body_scan (cfg : Config) (st : State A) (s : option bool * bool) :
  snd s = true ->
  snd (fold_left (scan_step unless_incomplete) (script_log (loop_body cfg st [])) s) = true.
Proof.
  intros Hs.
  destruct (loop_body cfg st []) as [[e l]|[st' l]] eqn:Hbody; cbn [script_log].
  - apply loop_body_raised in Hbody as [->|(w & u & r & Hc & ->)]; cbn; assumption.
  - apply loop_body_ok in Hbody as (w & _ & _ & ep & ->). cbn.
    destruct (adv_complete _); cbn; now rewrite ?Hs.
Qed.

Lemma loop_body_counts (cfg : Config) (st : State A) (file : OutFile) :
  let l := script_log (loop_body cfg st []) in
  sub_steps l = 1%nat
  /\ match loop_body cfg st [] with
     | inr _ => count_writes file l = completed_windows l
     | inl _ => count_writes file l = 0%nat
     end.
Proof.
  cbv zeta.
  destruct (loop_body cfg st []) as [[e l]|[st' l]] eqn:Hbody; cbn [script_log].
  - apply loop_body_raised in Hbody as [->|(w & u & r & Hc & ->)]; now cbn.
  - apply loop_body_ok in Hbody as (w & _ & _ & ep & ->).
    unfold sub_steps, count_writes, completed_windows. cbn.
    destruct (adv_complete _); destruct file; cbn; auto.
Qed.

Lemma time_loop_outputs (cfg : Config) (fuel : nat) : forall (st : State A),
  let o := time_loop fuel cfg st [] in
  (forall s, snd s = true ->
     snd (fold_left (scan_step unless_incomplete) (outcome_log o) s) = true)
  /\ (completed_windows (outcome_log o) <= sub_steps (outcome_log o))%nat
  /\ match o with
     | Finished _ log | Running _ log =>
         forall file, count_writes file log = completed_windows log
     | Raised _ log =>
         forall file, (count_writes file log <= completed_windows log)%nat
     end.
Proof.
  induction fuel as [|fuel IH]; intros st; cbv zeta; cbn [time_loop].
  - destruct (is_coupling_ongoing (precice st)); cbn; auto.
  - destruct (is_coupling_ongoing (precice st)); [|cbn; auto].
    pose proof (loop_body_scan cfg st) as Hscan.
    pose proof (loop_body_counts cfg st) as Hcount.
    destruct (loop_body cfg st []) as [[e l]|[st' l]] eqn:Hbody;
      cbn [script_log] in *.
    + cbn [outcome_log]. split; [assumption|].
      destruct (Hcount temperature_out) as [Hsub _].
      split.
      * unfold completed_windows, sub_steps.
        apply loop_body_raised in Hbody as [->|(w & u & r & Hc & ->)];
          cbn; rewrite ?Hc; lia.
      * intros file. destruct (Hcount file) as [_ ->]. lia.
    + rewrite time_loop_prefix.
      destruct (IH st') as (IHscan & IHsub & IHcount).
      destruct (time_loop fuel cfg st' []) as [st'' l'|e l'|st'' l'];
        cbn [outcome_with_prefix outcome_log] in *.
      all: split; [intros s Hs; rewrite fold_left_app; auto|].
      all: unfold count_writes, completed_windows, sub_steps in *.
      all: split;
        [ destruct (Hcount temperature_out) as [Hsub Hw]; rewrite !count_app;
          assert (count is_completed_window l <= 1)%nat
            by (rewrite <- Hw; apply loop_body_ok in Hbody as (w & _ & _ & ep & ->);
                cbn; destruct (adv_complete _); cbn; lia);
          lia
        | intros file; destruct (Hcount file) as [_ Hw]; rewrite !count_app, Hw;
          specialize (IHcount file); lia ].
Qed.

(** C1, as the code has it. No output is written after an exchange that
    reported an incomplete window: inside the loop the three files are
    written only after an exchange that reported a completed one.  They are
    also written once before the loop, for t = 0.  So, while the run goes on
    and when it ends, each file has been written once more than there are
    completed windows (and never more than that when the run is aborted),
    whatever the number of solver sub-steps, which is at least the number of
    completed windows. *)
Theorem outputs_follow_completed_windows (fuel : nat) (args : Args) :
  no_write_after_incomplete (outcome_log (main fuel args)) = true
  /\ (completed_windows (outcome_log (main fuel args))
      <= sub_steps (outcome_log (main fuel args)))%nat
  /\ match main fuel args with
     | Finished _ log | Running _ log =>
         forall file, count_writes file log = (1 + completed_windows log)%nat
     | Raised _ log =>
         forall file, (count_writes file log <= 1 + completed_windows log)%nat
     end.
Proof.
  unfold main, no_write_after_incomplete, scan.
  destruct (resolve_problem args) as [e|problem]; [cbn; auto|].
  cbv zeta.
  destruct (start_log (configure args problem)) as (n1 & n2 & n3 & Hstart).
  destruct (start (configure args problem) []) as [[e l]|[st l]] eqn:Hs;
    cbn [script_log] in Hstart.
  - cbn [outcome_log]. subst l.
    destruct (compute_errors _ _ _ _) as [e'|errors] eqn:Herr.
    + destruct (cfg_problem (configure args problem)); cbn;
        repeat split; try lia; intros []; cbn; lia.
    + exfalso. revert Hs.
      unfold_script.
      destruct (cfg_problem (configure args problem)); cbn; rewrite Herr; discriminate.
  - rewrite time_loop_prefix.
    destruct (time_loop_outputs (configure args problem) fuel st) as (Hscan & Hsub & Hcount).
    assert (Hl : snd (fold_left (scan_step unless_incomplete) l (None, true)) = true
                 /\ completed_windows l = 0%nat /\ sub_steps l = 0%nat
                 /\ forall file, count_writes file l = 1%nat).
    { subst l.
      destruct (compute_errors _ _ _ _) as [e'|errors] eqn:Herr.
      - exfalso. revert Hs.
        unfold_script.
        destruct (cfg_problem (configure args problem)); cbn; rewrite Herr; discriminate.
      - destruct (cfg_problem (configure args problem)); cbn;
          repeat split; intros []; reflexivity. }
    destruct Hl as (Hl1 & Hl2 & Hl3 & Hl4).
    destruct (time_loop fuel (configure args problem) st []) as [st' l'|e l'|st' l'];
      cbn [outcome_with_prefix outcome_log] in *.
    all: unfold count_writes, completed_windows, sub_steps in *.
    all: rewrite fold_left_app, !count_app.
    all: split; [apply Hscan; assumption|].
    all: split; [lia|].
    all: intros file; rewrite count_app, Hl4; specialize (Hcount file); lia.
Qed.

End OutputFacts.

(** One window of two sub-steps, Dirichlet participant: two solves, one
    completed window, and two writes to each file, the first of them before
    any exchange. *)
Lemma initial_write_precedes_exchanges :
  sub_steps (outcome_log (main (W := reference_world two_sub_steps 0.5) 5 default_dirichlet))
    = 2%nat
  /\ completed_windows
       (outcome_log (main (W := reference_world two_sub_steps 0.5) 5 default_dirichlet))
     = 1%nat
  /\ count_writes temperature_out
       (outcome_log (main (W := reference_world two_sub_steps 0.5) 5 default_dirichlet))
     = 2%nat
  /\ writes_only_when_complete
       (outcome_log (main (W := reference_world two_sub_steps 0.5) 5 default_dirichlet))
     = false.
Proof. repeat split; vm_compute; reflexivity. Qed.

(** ** The state after a pass *)

Lemma last_advance_app (l l' : list Event) :
  last_advance (l ++ l')
  = match last_advance l' with
    | Some r => Some r
    | None => last_advance l
    end.
Proof.
  unfold last_advance. rewrite fold_left_app.
  generalize (fold_left (fun last ev => match ev with
                                        | EvAdvance _ _ _ _ _ _ r => Some r
                                        | _ => last
                                        end) l None).
  induction l' as [|ev l' IH] using rev_ind; intros o; [now destruct o|].
  rewrite !fold_left_app. cbn. destruct ev; try apply IH; reflexivity.
Qed.

Section StepFacts.
Context {A : Type} {W : World A}.

(** A pass that comes to its end, after any log: the answer [r] of its call
    to [advance] is the latest one in the log, and the new state is read off
    that call. *)
Lemma loop_body_step (cfg : Config) (st st' : State A) (log log' : list Event) :
  loop_body cfg st log = inr (st', log') ->
  exists w r,
    last_advance log' = Some r
    /\ advance (precice st) w (solve (precice st) (current_problem cfg st))
         (u_n st) (t st) (dt st) (n st)
       = (precice st', u_n st', r)
    /\ t st' = adv_t r /\ n st' = adv_n r
    /\ dt st' = np_min2 (fenics_dt (precice st')) (adv_dt r)
    /\ u_D_t st' = (t st' + dt st')%float
    /\ f_t st' = (t st' + dt st')%float
    /\ u_np1 st' = solve (precice st) (current_problem cfg st).
Proof.
  rewrite (extends_loop_body cfg st log).
  destruct (loop_body cfg st []) as [[e l]|[st1 l]] eqn:Hbody; [discriminate|].
  cbn. intros [= <- <-].
  apply loop_body_ok in Hbody as (w & _ & Hst & ep & ->).
  cbv zeta in Hst.
  exists w, (snd (advance (precice st) w (solve (precice st) (current_problem cfg st))
                    (u_n st) (t st) (dt st) (n st))).
  split.
  { rewrite last_advance_app.
    destruct (adv_complete _); reflexivity. }
  rewrite Hst. cbn.
  repeat split.
  now destruct (advance _ _ _ _ _ _ _) as [[a un] r].
Qed.

(** C3. After a pass that reached its end, [dt] is the minimum of the
    adapter's own step [fenics_dt] and the step the call to [advance]
    negotiated: it is one of these two numbers and is above neither of them,
    in particular not above the negotiated step, and it is below both when
    neither is NaN; [u_D.t] and [f.t] are the new time plus that [dt]; and
    these are the values the next [solve] reads. *)
Theorem step_size_clamped_to_negotiated (cfg : Config) (st st' : State A)
    (log log' : list Event) :
  loop_body cfg st log = inr (st', log') ->
  exists r,
    last_advance log' = Some r
    /\ dt st' = np_min2 (fenics_dt (precice st')) (adv_dt r)
    /\ (dt st' = fenics_dt (precice st') \/ dt st' = adv_dt r)
    /\ (fenics_dt (precice st') <? dt st')%float = false
    /\ (adv_dt r <? dt st')%float = false
    /\ (is_nan (fenics_dt (precice st')) = false -> is_nan (adv_dt r) = false ->
        (dt st' <=? fenics_dt (precice st'))%float = true
        /\ (dt st' <=? adv_dt r)%float = true)
    /\ t st' = adv_t r
    /\ u_D_t st' = (t st' + dt st')%float
    /\ f_t st' = (t st' + dt st')%float
    /\ p_dt (current_problem cfg st') = dt st'
    /\ p_u_D (current_problem cfg st') = u_D (t st' + dt st')
    /\ p_f (current_problem cfg st') = f (t st' + dt st').
Proof.
  intros (w & r & Hlast & _ & Ht & _ & Hdt & HuD & Hf & _)%loop_body_step.
  destruct (np_min2_spec (fenics_dt (precice st')) (adv_dt r))
    as (Hone & Hlocal & Hnegotiated & _).
  exists r. rewrite <- Hdt in Hone, Hlocal, Hnegotiated.
  repeat match goal with |- _ /\ _ => split end; try assumption.
  - intros Ha Hb. rewrite Hdt. now apply np_min2_below.
  - reflexivity.
  - cbn. now rewrite HuD.
  - cbn. now rewrite Hf.
Qed.

(** C4. A pass that reached its end leaves in [t], [n] and [u_n] exactly
    what its call to [advance] returned and left in the previous field: the
    body assigns none of them otherwise.  So when the adapter rejects the
    step, answering with the time and index it was given and leaving the
    previous field as it was, the pass leaves all three unchanged, and the
    next solve starts from the same previous field. *)
Theorem rejected_step_leaves_time_state (cfg : Config) (st st' : State A)
    (log log' : list Event) :
  loop_body cfg st log = inr (st', log') ->
  exists w r u_n',
    advance (precice st) w (solve (precice st) (current_problem cfg st))
      (u_n st) (t st) (dt st) (n st)
    = (precice st', u_n', r)
    /\ last_advance log' = Some r
    /\ t st' = adv_t r /\ n st' = adv_n r /\ u_n st' = u_n'
    /\ (adv_t r = t st -> adv_n r = n st -> u_n' = u_n st ->
        t st' = t st /\ n st' = n st /\ u_n st' = u_n st
        /\ p_u_n (current_problem cfg st') = p_u_n (current_problem cfg st)).
Proof.
  intros (w & r & Hlast & Hadv & Ht & Hn & _)%loop_body_step.
  exists w, r, (u_n st'). repeat split; try assumption; cbn; congruence.
Qed.

End StepFacts.

Lemma step_size_witness :
  (dt (fst retry_pass1) = 0.25%float
   /\ exists r, last_advance (snd retry_pass1) = Some r
        /\ adv_dt r = 0.25%float
        /\ fenics_dt (World := retry_world) (precice (fst retry_pass1)) = 0.5%float
        /\ (adv_dt r <? dt (fst retry_pass1))%float = false)
  /\ (dt (fst short_step_pass1) = 0.25%float
      /\ exists r, last_advance (snd short_step_pass1) = Some r
           /\ adv_dt r = 1%float
           /\ fenics_dt (World := short_step_world) (precice (fst short_step_pass1))
              = 0.25%float
           /\ (fenics_dt (World := short_step_world) (precice (fst short_step_pass1))
               <? dt (fst short_step_pass1))%float = false).
Proof.
  assert (loop_body (W := retry_world) retry_cfg retry_state0 []
          = inr (fst retry_pass1, snd retry_pass1)) as Hretry
    by (vm_compute; reflexivity).
  assert (loop_body (W := short_step_world) short_step_cfg short_step_state0 []
          = inr (fst short_step_pass1, snd short_step_pass1)) as Hshort
    by (vm_compute; reflexivity).
  split.
  - split; [vm_compute; reflexivity|].
    destruct (step_size_clamped_to_negotiated (W := retry_world) _ _ _ _ _ Hretry)
      as (r & Hlast & _ & _ & _ & Hle & _).
    exists r. split; [assumption|].
    assert (Some r = Some (mkAdvance 0 0 false 0.25)) as [= Hr]
      by (rewrite <- Hlast; vm_compute; reflexivity).
    split; [now rewrite Hr|]. split; [vm_compute; reflexivity|assumption].
  - split; [vm_compute; reflexivity|].
    destruct (step_size_clamped_to_negotiated (W := short_step_world) _ _ _ _ _ Hshort)
      as (r & Hlast & _ & _ & Hle & _).
    exists r. split; [assumption|].
    assert (Some r = Some (mkAdvance 0.25 1 false 1)) as [= Hr]
      by (rewrite <- Hlast; vm_compute; reflexivity).
    split; [now rewrite Hr|]. split; [vm_compute; reflexivity|assumption].
Defined.

Lemma rejected_step_witness :
  loop_body (W := retry_world) retry_cfg retry_state0 [] = inr retry_pass1
  /\ t (fst retry_pass1) = t retry_state0
  /\ n (fst retry_pass1) = n retry_state0
  /\ u_n (fst retry_pass1) = u_n retry_state0.
Proof.
  assert (loop_body (W := retry_world) retry_cfg retry_state0 []
          = inr (fst retry_pass1, snd retry_pass1)) as Hbody
    by (vm_compute; reflexivity).
  split; [vm_compute; reflexivity|].
  destruct (rejected_step_leaves_time_state (W := retry_world) _ _ _ _ _ Hbody)
    as (w & r & un & Hadv & Hlast & Ht & Hn & Hun & Hrej).
  assert (Some r = Some (mkAdvance 0 0 false 0.25)) as [= ->]
    by (rewrite <- Hlast; vm_compute; reflexivity).
  assert (un = u_n retry_state0) as Hun0
    by (rewrite <- Hun; vm_compute; reflexivity).
  destruct (Hrej eq_refl eq_refl Hun0) as (H1 & H2 & H3 & _).
  repeat split; assumption.
Defined.

(** ** Exchanged quantities *)

Section ExchangeFacts.
Context {A : Type} {W : World A}.

(** C8. At [initialize] the Dirichlet role reads the interpolated temperature
    and writes the interpolated flux, the Neumann role the reverse.  In a
    pass of the loop, the Neumann role hands the solved field itself to
    [advance]; the Dirichlet role hands over what the flux evaluator derives
    from the solved field, and makes no exchange when the evaluator aborts. *)
Theorem exchanged_quantities_swap_with_role (cfg : Config) (st : State A) :
  let V := cfg_V cfg in
  let temperature := interpolate (u_D 0) V in
  let flux := interpolate (f_N 0) V in
  let solved := solve (precice st) (current_problem cfg st) in
  initialize_calls (script_log (start cfg []))
  = [match cfg_problem cfg with
     | DIRICHLET => (temperature, flux)
     | NEUMANN => (flux, temperature)
     end]
  /\ match cfg_problem cfg with
     | NEUMANN => advance_calls (script_log (loop_body cfg st [])) = [(solved, solved)]
     | DIRICHLET =>
         match fluxes_from_temperature_full_domain
                 (F_known_u_form V solved (dt st) (u_n st) (f (f_t st))) V with
         | inr fluxes =>
             advance_calls (script_log (loop_body cfg st [])) = [(fluxes, solved)]
         | inl e => loop_body cfg st [] = inl (e, [EvSolve (current_problem cfg st)])
         end
     end.
Proof.
  cbv zeta. split.
  - destruct (start_log cfg) as (n1 & n2 & n3 & ->).
    destruct (cfg_problem cfg); cbn;
      destruct (compute_errors _ _ _ _) as [e|errors]; reflexivity.
  - unfold_script. cbn.
    destruct (cfg_problem cfg).
    + destruct (fluxes_from_temperature_full_domain _ _) as [e|fluxes]; [reflexivity|].
      cbn. destruct (adv_complete _); [|reflexivity].
      destruct (compute_errors _ _ _ _) as [e|errors]; reflexivity.
    + cbn. destruct (adv_complete _); [|reflexivity].
      destruct (compute_errors _ _ _ _) as [e|errors]; reflexivity.
Qed.

End ExchangeFacts.

(** ** The error at the start *)

Lemma zip_with_sub_diag (u : Field) :
  forallb is_finite u = true ->
  zip_with (fun a r => abs (r - a)%float) u u = replicate (length u) 0%float.
Proof.
  induction u as [|x u IH]; [reflexivity|].
  cbn [forallb]. intros [Hx Hu]%andb_prop.
  cbn. rewrite (sub_diag_finite x Hx), (IH Hu). reflexivity.
Qed.

Lemma sum_of_squares_zero (k : nat) :
  fold_left (fun acc e => (acc + e * e)%float) (replicate k 0%float) 0%float = 0%float.
Proof. induction k as [|k IH]; [reflexivity|]. cbn. exact IH. Qed.

Lemma compute_errors_spec_diag (u : Field) (V : FunctionSpaceT) (tol : option float) :
  forallb is_finite u = true ->
  compute_errors_spec u u V tol
  = (0%float, replicate (length u) 0%float,
     match tol with Some tol' => (tol' <? 0)%float | None => false end).
Proof.
  intros Hfin. unfold compute_errors_spec.
  rewrite (zip_with_sub_diag u Hfin), sum_of_squares_zero.
  reflexivity.
Qed.

Section InitialErrorFacts.
Context {A : Type} {W : World A}.

(** C9. With alpha = 3, beta = 1.3, gamma = 0, the temperature and the
    reference field written at t = 0 are both the interpolation of the
    expression [u_D] at t = 0 on the same function space; when its degrees of
    freedom are finite numbers, the aggregate error between the two is zero,
    below 1e-12, and no failure is flagged. *)
Theorem initial_error_below_tolerance (cfg : Config) :
  let V := cfg_V cfg in
  let u_0 := interpolate (Expr_u_D 3 1.3 0 0) V in
  forallb is_finite u_0 = true ->
  written temperature_out (script_log (start cfg [])) = [u_0]
  /\ written ref_out (script_log (start cfg [])) = [u_0]
  /\ forall u_n u_ref,
       written temperature_out (script_log (start cfg [])) = [u_n] ->
       written ref_out (script_log (start cfg [])) = [u_ref] ->
       (fst (fst (compute_errors_spec u_n u_ref V None)) <? 1e-12)%float = true
       /\ fst (fst (compute_errors_spec u_n u_ref V None)) = 0%float
       /\ snd (compute_errors_spec u_n u_ref V None) = false.
Proof.
  cbv zeta. intros Hfin.
  assert (written temperature_out (script_log (start cfg []))
          = [interpolate (Expr_u_D 3 1.3 0 0) (cfg_V cfg)]
          /\ written ref_out (script_log (start cfg []))
             = [interpolate (Expr_u_D 3 1.3 0 0) (cfg_V cfg)]) as [Hn Hr].
  { destruct (start_log cfg) as (n1 & n2 & n3 & ->).
    destruct (cfg_problem cfg); cbn;
      destruct (compute_errors _ _ _ _) as [e|errors]; split; reflexivity. }
  split; [assumption|]. split; [assumption|].
  intros u_n u_ref Hn' Hr'.
  rewrite Hn in Hn'. rewrite Hr in Hr'.
  injection Hn' as <-. injection Hr' as <-.
  rewrite (compute_errors_spec_diag _ _ None Hfin). cbn.
  repeat split.
Qed.

End InitialErrorFacts.

Lemma initial_error_witness :
  forallb is_finite
    (interpolate (World := reference_world [] 1) (Expr_u_D 3 1.3 0 0)
       (cfg_V (configure (W := reference_world [] 1) default_dirichlet DIRICHLET))) = true
  /\ written temperature_out
       (script_log (start (W := reference_world [] 1)
                      (configure (W := reference_world [] 1) default_dirichlet DIRICHLET) []))
     = written ref_out
         (script_log (start (W := reference_world [] 1)
                        (configure (W := reference_world [] 1) default_dirichlet DIRICHLET) [])).
Proof.
  assert (forallb is_finite
            (interpolate (World := reference_world [] 1) (Expr_u_D 3 1.3 0 0)
               (cfg_V (configure (W := reference_world [] 1) default_dirichlet DIRICHLET)))
          = true) as Hfin by (vm_compute; reflexivity).
  split; [exact Hfin|].
  destruct (initial_error_below_tolerance (W := reference_world [] 1) _ Hfin)
    as (-> & -> & _).
  reflexivity.
Defined.

(** On the vertices of both meshes the expression [u_D] at t = 0 evaluates,
    in binary64, to [1 + x^2 + 3 y^2]. *)
Example u_D_reduces_on_meshes :
  forallb (fun p => (eval_expression (Expr_u_D 3 1.3 0 0) p
                     =? 1 + x0 p * x0 p + 3 * x1 p * x1 p)%float)
    (vertices (RectangleMesh (mkPoint 0 0) (mkPoint 1.5 1) 30 10)
     ++ vertices (RectangleMesh (mkPoint 1.5 0) (mkPoint 2 1) 10 10)) = true.
Proof. vm_compute. reflexivity. Qed.

(** * Further properties of the script *)

(** ** The state in which the loop is entered *)

Section EntryFacts.
Context {A : Type} {W : World A}.

Lemma start_ok (cfg : Config) (st : State A) (l : list Event) :
  start cfg [] = inr (st, l) ->
  let V := cfg_V cfg in
  t st = 0%float /\ n st = 0
  /\ u_D_t st = (0 + dt st)%float /\ f_t st = (0 + dt st)%float
  /\ u_n st = interpolate (u_D 0) V /\ u_ref st = interpolate (u_D 0) V
  /\ exists errors,
       compute_errors (interpolate (u_D 0) V) (interpolate (u_D 0) V) V None = ret errors.
Proof.
  cbv zeta. unfold_script.
  destruct (cfg_problem cfg); cbn;
    destruct (compute_errors _ _ _ _) as [e|errors]; try discriminate;
    intros [= <- <-]; cbn; repeat split; eauto.
Qed.

Lemma cfg_problem_configure (args : Args) (problem : ProblemType) :
  cfg_problem (configure args problem) = problem.
Proof. now destruct problem. Qed.

(** A run whose role is resolved: the log of the start, then the log of the
    loop entered in the state the start reached. *)
Lemma main_unfold (fuel : nat) (args : Args) (problem : ProblemType) :
  resolve_problem args = ret problem ->
  let cfg := configure args problem in
  match start cfg [] with
  | inl (e, l) => main fuel args = Raised e l
  | inr (st, l) => main fuel args = outcome_with_prefix l (time_loop fuel cfg st [])
  end.
Proof.
  intros Hrole. cbv zeta. unfold main. rewrite Hrole. unfold ret. cbv beta iota zeta.
  destruct (start (configure args problem) []) as [[e l]|[st l]]; [reflexivity|].
  apply time_loop_prefix.
Qed.

End EntryFacts.

(** ** Invariants of a run *)

Section RunFacts.
Context {A : Type} {W : World A}.

(** A property of the state and the log that holds when the loop is entered
    and is kept by every pass holds whenever the loop is at its head; what
    is known of the log when the run finishes or is aborted follows from
    it. *)
Lemma time_loop_invariant (cfg : Config)
    (I : State A -> list Event -> Prop) (Qf Qr : list Event -> Prop) :
  (forall st log st' l, I st log -> is_coupling_ongoing (precice st) = true ->
     loop_body cfg st [] = inr (st', l) -> I st' (log ++ l)) ->
  (forall st log e l, I st log -> is_coupling_ongoing (precice st) = true ->
     loop_body cfg st [] = inl (e, l) -> Qr (log ++ l)) ->
  (forall st log, I st log -> is_coupling_ongoing (precice st) = false ->
     Qf (log ++ [EvFinalize])) ->
  forall fuel st log, I st log ->
    match time_loop fuel cfg st log with
    | Finished _ l => Qf l
    | Raised _ l => Qr l
    | Running st' l => I st' l
    end.
Proof.
  intros Hpass Hraise Hend fuel.
  induction fuel as [|fuel IH]; intros st log HI; cbn [time_loop];
    destruct (is_coupling_ongoing (precice st)) eqn:Hon;
    try (now apply (Hend st)); try assumption.
  rewrite (extends_loop_body cfg st log).
  destruct (loop_body cfg st []) as [[e l]|[st' l]] eqn:Hbody; cbn [with_prefix].
  - now apply (Hraise st log e l).
  - apply IH. now apply (Hpass st log st' l).
Qed.

Lemma main_cases (fuel : nat) (args : Args) (problem : ProblemType) :
  resolve_problem args = ret problem ->
  main fuel args
  = match start (configure args problem) [] with
    | inl (e, l) => Raised e l
    | inr (st, l) => time_loop fuel (configure args problem) st l
    end.
Proof. intros Hrole. unfold main. now rewrite Hrole. Qed.

(** The same for a whole run: the property has to hold after the start, and
    what is to be known of the log of an aborted run has to hold of the
    empty log and of the log of a start that raised. *)
Lemma main_invariant (I : Config -> State A -> list Event -> Prop)
    (Qf Qr : Config -> list Event -> Prop) (Q0 : list Event -> Prop) :
  Q0 [] ->
  (forall cfg st l, start cfg [] = inr (st, l) -> I cfg st l) ->
  (forall cfg e l, start cfg [] = inl (e, l) -> Qr cfg l) ->
  (forall cfg st log st' l, I cfg st log -> is_coupling_ongoing (precice st) = true ->
     loop_body cfg st [] = inr (st', l) -> I cfg st' (log ++ l)) ->
  (forall cfg st log e l, I cfg st log -> is_coupling_ongoing (precice st) = true ->
     loop_body cfg st [] = inl (e, l) -> Qr cfg (log ++ l)) ->
  (forall cfg st log, I cfg st log -> is_coupling_ongoing (precice st) = false ->
     Qf cfg (log ++ [EvFinalize])) ->
  forall fuel args,
    match resolve_problem args with
    | inl _ => Q0 (outcome_log (main fuel args))
    | inr problem =>
        match main fuel args with
        | Finished _ l => Qf (configure args problem) l
        | Raised _ l => Qr (configure args problem) l
        | Running st l => I (configure args problem) st l
        end
    end.
Proof.
  intros H0 Hstart Hstartr Hpass Hraise Hend fuel args.
  destruct (resolve_problem args) as [e|problem] eqn:Hrole.
  - unfold main. rewrite Hrole. exact H0.
  - rewrite (main_cases fuel args problem Hrole).
    destruct (start (configure args problem) []) as [[e l]|[st l]] eqn:Hs.
    + now apply (Hstartr _ e).
    + apply (time_loop_invariant (configure args problem)
               (I (configure args problem)) (Qf (configure args problem))
               (Qr (configure args problem))); eauto.
Qed.

(** The events of a pass, whether it came to its end or raised. *)
Lemma loop_body_events (cfg : Config) (st : State A) :
  let pb := current_problem cfg st in
  match loop_body cfg st [] with
  | inr (st', l) =>
      exists w u r, l = EvSolve pb :: EvAdvance w u (u_n st) (t st) (dt st) (n st) r
                        :: (if adv_complete r
                            then [EvWrite temperature_out (u_n st');
                                  EvWrite ref_out (u_ref st');
                                  EvWrite error_out
                                    (match compute_errors (u_n st') (u_ref st') (cfg_V cfg)
                                             (Some error_tol) with
                                     | inr errors => snd errors
                                     | inl _ => []
                                     end)]
                            else [])
        /\ t st' = adv_t r /\ n st' = adv_n r
        /\ u_D_t st' = (t st' + dt st')%float /\ f_t st' = (t st' + dt st')%float
  | inl (e, l) =>
      (cfg_problem cfg = DIRICHLET /\ l = [EvSolve pb])
      \/ exists w u r, l = [EvSolve pb; EvAdvance w u (u_n st) (t st) (dt st) (n st) r]
  end.
Proof.
  cbv zeta. unfold_script. cbn.
  destruct (cfg_problem cfg).
  - destruct (fluxes_from_temperature_full_domain _ _) as [e|w]; [now left|].
    cbn. destruct (adv_complete _) eqn:Hc.
    + destruct (compute_errors _ _ _ _) as [e|[err ep]] eqn:He; cbn.
      * right. eauto.
      * do 3 eexists. rewrite Hc, He. cbn. repeat split.
    + do 3 eexists. rewrite Hc. cbn. repeat split.
  - cbn. destruct (adv_complete _) eqn:Hc.
    + destruct (compute_errors _ _ _ _) as [e|[err ep]] eqn:He; cbn.
      * right. eauto.
      * do 3 eexists. rewrite Hc, He. cbn. repeat split.
    + do 3 eexists. rewrite Hc. cbn. repeat split.
Qed.

End RunFacts.

(** The log of a start, whether it raised or not, in the form [start_log]
    gives it. *)
Ltac start_cases cfg Hs l :=
  let n1 := fresh "n1" in let n2 := fresh "n2" in let n3 := fresh "n3" in
  let H := fresh "Hlog" in
  destruct (start_log cfg) as (n1 & n2 & n3 & H);
  rewrite Hs in H; cbn [script_log] in H; subst l;
  destruct (cfg_problem cfg);
  destruct (compute_errors _ _ _ _) as [?|?].

(** The events of a pass, from [loop_body_events]. *)
Ltac pass_cases cfg st Hbody l :=
  let H := fresh "Hev" in
  pose proof (loop_body_events cfg st) as H; cbv zeta in H; rewrite Hbody in H;
  first
    [ destruct H as (?w & ?u & ?r & -> & ?Ht & ?Hn & ?HuD & ?Hf)
    | destruct H as [[?Hrole ->]|(?w & ?u & ?r & ->)] ].

Section RunInvariants.
Context {A : Type} {W : World A}.

(** X1. [precice.finalize] is called exactly once, as the last call of a run
    whose loop was left because the coupling is over; it is not called in a
    run that was aborted, nor while the coupling is ongoing. *)
Theorem finalize_called_once_at_the_end (fuel : nat) (args : Args) :
  match main fuel args with
  | Finished _ log => finalize_calls log = 1%nat /\ last log = Some EvFinalize
  | Raised _ log | Running _ log => finalize_calls log = 0%nat
  end.
Proof.
  pose proof (main_invariant
                (fun _ _ log => finalize_calls log = 0%nat)
                (fun _ log => finalize_calls log = 1%nat /\ last log = Some EvFinalize)
                (fun _ log => finalize_calls log = 0%nat)
                (fun log => finalize_calls log = 0%nat)) as Hinv.
  unfold finalize_calls in *.
  specialize (Hinv eq_refl).
  destruct (resolve_problem args) as [e|problem] eqn:Hrole.
  - unfold main. now rewrite Hrole.
  - specialize (fun H1 H2 H3 H4 H5 => Hinv H1 H2 H3 H4 H5 fuel args).
    rewrite Hrole in Hinv. apply Hinv; clear Hinv.
    + intros cfg st l Hs. start_cases cfg Hs l; reflexivity.
    + intros cfg e l Hs. start_cases cfg Hs l; reflexivity.
    + intros cfg st log st' l HI _ Hbody. pass_cases cfg st Hbody l.
      rewrite count_app, HI. cbn. now destruct (adv_complete r).
    + intros cfg st log e l HI _ Hbody. pass_cases cfg st Hbody l;
        now rewrite count_app, HI.
    + intros cfg st log HI _. rewrite count_app, HI. split; [reflexivity|].
      apply last_snoc.
Qed.

Lemma chain_step_fold_other (l : list Event) (s : float * Z * Prop) :
  count is_advance l = 0%nat -> fold_left chain_step l s = s.
Proof.
  revert s. induction l as [|ev l IH]; intros s; [reflexivity|].
  cbn. destruct ev; cbn; try (intros; now apply IH). discriminate.
Qed.

(** X2. In every run, each call to [advance] is made with the time and the
    step index the previous call returned, and the first call with 0 and 0:
    between two exchanges the script changes neither. *)
Theorem exchanges_chain_time_and_index (fuel : nat) (args : Args) :
  exchanges_chained (outcome_log (main fuel args)).
Proof.
  pose proof (main_invariant
                (fun _ st log =>
                   fst (fold_left chain_step log (0%float, 0, True)) = (t st, n st)
                   /\ exchanges_chained log)
                (fun _ log => exchanges_chained log)
                (fun _ log => exchanges_chained log)
                (fun log => exchanges_chained log)) as Hinv.
  unfold exchanges_chained in *.
  specialize (Hinv I).
  specialize (fun H1 H2 H3 H4 H5 => Hinv H1 H2 H3 H4 H5 fuel args).
  assert (forall cfg st (log : list Event) w u r ws,
            fst (fold_left chain_step log (0%float, 0, True)) = (t st, n st) ->
            snd (fold_left chain_step log (0%float, 0, True)) ->
            count is_advance ws = 0%nat ->
            fst (fold_left chain_step
                   (log ++ EvSolve (current_problem cfg st)
                        :: EvAdvance w u (u_n st) (t st) (dt st) (n st) r :: ws)
                   (0%float, 0, True)) = (adv_t r, adv_n r)
            /\ snd (fold_left chain_step
                      (log ++ EvSolve (current_problem cfg st)
                           :: EvAdvance w u (u_n st) (t st) (dt st) (n st) r :: ws)
                      (0%float, 0, True))) as Hstep.
  { intros cfg st log w u r ws Hfst Hsnd Hws.
    rewrite fold_left_app. cbn [fold_left chain_step].
    rewrite (chain_step_fold_other ws) by assumption.
    cbn [fst snd]. rewrite Hfst. cbn. tauto. }
  destruct (resolve_problem args) as [e|problem] eqn:Hrole.
  - unfold main. rewrite Hrole. exact I.
  - assert (match main fuel args with
            | Finished _ l | Raised _ l =>
                snd (fold_left chain_step l (0%float, 0, True))
            | Running st l =>
                fst (fold_left chain_step l (0%float, 0, True)) = (t st, n st)
                /\ snd (fold_left chain_step l (0%float, 0, True))
            end) as Hmain.
    { apply Hinv; clear Hinv.
      - intros cfg st l Hs.
        destruct (start_ok cfg st l Hs) as (Ht & Hn & _).
        rewrite Ht, Hn.
        start_cases cfg Hs l; try discriminate; cbn; auto.
      - intros cfg e l Hs. start_cases cfg Hs l; cbn; exact I.
      - intros cfg st log st' l [Hfst Hsnd] _ Hbody. pass_cases cfg st Hbody l.
        rewrite Ht, Hn. apply Hstep; try assumption.
        now destruct (adv_complete r).
      - intros cfg st log e l [Hfst Hsnd] _ Hbody. pass_cases cfg st Hbody l.
        + rewrite fold_left_app. exact Hsnd.
        + now apply (Hstep cfg st log w u r []).
      - intros cfg st log [Hfst Hsnd] _. rewrite fold_left_app. exact Hsnd. }
    destruct (main fuel args); cbn [outcome_log]; tauto.
Qed.

Lemma pair_step_fold_writes (l : list Event) (s : option Problem * Prop) :
  count is_advance l = 0%nat -> sub_steps l = 0%nat -> fold_left pair_step l s = s.
Proof.
  revert s. induction l as [|ev l IH]; intros s; [reflexivity|].
  unfold sub_steps. cbn. destruct ev; cbn; try (intros; now apply IH); discriminate.
Qed.

(** X3. In every run, each call to [advance] directly follows a solve of
    the same pass: the solve used the step [dt] and the previous field the
    call is made with, and its boundary value [u_D] and source term [f] were
    taken at the end of the step, at [t + dt] for the [t] and [dt] of the
    call. *)
Theorem exchanges_follow_solves_at_step_end (fuel : nat) (args : Args) :
  exchanges_follow_solves (outcome_log (main fuel args)).
Proof.
  pose proof (main_invariant
                (fun _ st log =>
                   exchanges_follow_solves log
                   /\ u_D_t st = (t st + dt st)%float /\ f_t st = (t st + dt st)%float)
                (fun _ log => exchanges_follow_solves log)
                (fun _ log => exchanges_follow_solves log)
                (fun log => exchanges_follow_solves log)) as Hinv.
  unfold exchanges_follow_solves in *.
  specialize (Hinv I).
  specialize (fun H1 H2 H3 H4 H5 => Hinv H1 H2 H3 H4 H5 fuel args).
  assert (forall cfg st (log : list Event) w u r ws,
            snd (fold_left pair_step log (None, True)) ->
            u_D_t st = (t st + dt st)%float -> f_t st = (t st + dt st)%float ->
            count is_advance ws = 0%nat -> sub_steps ws = 0%nat ->
            snd (fold_left pair_step
                   (log ++ EvSolve (current_problem cfg st)
                        :: EvAdvance w u (u_n st) (t st) (dt st) (n st) r :: ws)
                   (None, True))) as Hstep.
  { intros cfg st log w u r ws Hsnd HuD Hf Hws Hws'.
    rewrite fold_left_app. cbn [fold_left pair_step].
    rewrite (pair_step_fold_writes ws) by assumption.
    cbn. unfold u_D, f. rewrite HuD, Hf. tauto. }
  destruct (resolve_problem args) as [e|problem] eqn:Hrole.
  - unfold main. rewrite Hrole. exact I.
  - assert (match main fuel args with
            | Finished _ l | Raised _ l => snd (fold_left pair_step l (None, True))
            | Running st l =>
                snd (fold_left pair_step l (None, True))
                /\ u_D_t st = (t st + dt st)%float /\ f_t st = (t st + dt st)%float
            end) as Hmain.
    { apply Hinv; clear Hinv.
      - intros cfg st l Hs.
        destruct (start_ok cfg st l Hs) as (Ht & _ & HuD & Hf & _).
        rewrite Ht. split; [|tauto].
        start_cases cfg Hs l; cbn; exact I.
      - intros cfg e l Hs. start_cases cfg Hs l; cbn; exact I.
      - intros cfg st log st' l (Hsnd & HuD' & Hf') _ Hbody. pass_cases cfg st Hbody l.
        split; [|tauto].
        apply Hstep; try assumption; now destruct (adv_complete r).
      - intros cfg st log e l (Hsnd & HuD' & Hf') _ Hbody. pass_cases cfg st Hbody l.
        + rewrite fold_left_app. exact Hsnd.
        + now apply (Hstep cfg st log w u r []).
      - intros cfg st log (Hsnd & _) _. rewrite fold_left_app. exact Hsnd. }
    destruct (main fuel args); cbn [outcome_log]; tauto.
Qed.

(** X4. A run makes one exchange per solve: the two counts are equal while
    the run goes on and when it finishes, and in every run of the Neumann
    participant; in an aborted run of the Dirichlet participant the solves
    are at most one more than the exchanges. *)
Theorem one_exchange_per_solve (fuel : nat) (args : Args) :
  (exchanges (outcome_log (main fuel args)) <= sub_steps (outcome_log (main fuel args))
   <= exchanges (outcome_log (main fuel args)) + 1)%nat
  /\ match main fuel args with
     | Finished _ log | Running _ log => exchanges log = sub_steps log
     | Raised _ log =>
         resolve_problem args = ret NEUMANN -> exchanges log = sub_steps log
     end.
Proof.
  pose proof (main_invariant
                (fun _ _ log => exchanges log = sub_steps log)
                (fun _ log => exchanges log = sub_steps log)
                (fun cfg log =>
                   (exchanges log <= sub_steps log <= exchanges log + 1)%nat
                   /\ (cfg_problem cfg = NEUMANN -> exchanges log = sub_steps log))
                (fun log => exchanges log = sub_steps log)) as Hinv.
  unfold exchanges, sub_steps in *.
  specialize (Hinv eq_refl).
  specialize (fun H1 H2 H3 H4 H5 => Hinv H1 H2 H3 H4 H5 fuel args).
  destruct (resolve_problem args) as [e|problem] eqn:Hrole.
  - unfold main. rewrite Hrole. cbn. split; [lia|discriminate].
  - assert (match main fuel args with
            | Finished _ l | Running _ l => count is_advance l = count is_solve l
            | Raised _ l =>
                (count is_advance l <= count is_solve l <= count is_advance l + 1)%nat
                /\ (cfg_problem (configure args problem) = NEUMANN ->
                    count is_advance l = count is_solve l)
            end) as Hmain.
    { apply Hinv; clear Hinv.
      - intros cfg st l Hs. start_cases cfg Hs l; reflexivity.
      - intros cfg e l Hs. start_cases cfg Hs l; cbn; split; (lia || reflexivity).
      - intros cfg st log st' l HI _ Hbody. pass_cases cfg st Hbody l.
        rewrite !count_app, HI. cbn. now destruct (adv_complete r).
      - intros cfg st log e l HI _ Hbody. pass_cases cfg st Hbody l;
          rewrite !count_app, HI; cbn; split; try lia; congruence.
      - intros cfg st log HI _. rewrite !count_app, HI. reflexivity. }
    rewrite cfg_problem_configure in Hmain.
    destruct (main fuel args); cbn [outcome_log]; split; try lia; try tauto.
    intros [= ->]. tauto.
Qed.

End RunInvariants.

(** ** Aborted runs *)

Section AbortFacts.
Context {A : Type} {W : World A}.

(** X5. When the flux evaluator raises in a pass of the Dirichlet
    participant, the run stops there with that exception: the log ends with
    the solve of the pass, so the flux is not exchanged, nothing is written
    and [finalize] is not called. *)
Theorem flux_failure_aborts_the_run (cfg : Config) (st : State A) (e : exn)
    (fuel : nat) (log : list Event) :
  cfg_problem cfg = DIRICHLET ->
  is_coupling_ongoing (precice st) = true ->
  fluxes_from_temperature_full_domain
    (F_known_u_form (cfg_V cfg) (solve (precice st) (current_problem cfg st))
       (dt st) (u_n st) (f (f_t st)))
    (cfg_V cfg) = raise e ->
  time_loop (S fuel) cfg st log = Raised e (log ++ [EvSolve (current_problem cfg st)]).
Proof.
  intros Hrole Hon Hflux. cbn [time_loop]. rewrite Hon.
  rewrite (extends_loop_body cfg st log).
  unfold_script. cbn. rewrite Hrole, Hflux. reflexivity.
Qed.

(** X17. When the adapter reports right after [initialize] that the coupling
    is over, the loop body is never entered: the run consists of the calls
    of the start followed by [finalize], with no solve and no exchange. *)
Theorem run_without_coupling_steps (fuel : nat) (args : Args) (problem : ProblemType)
    (st : State A) (l : list Event) :
  resolve_problem args = ret problem ->
  start (configure args problem) [] = inr (st, l) ->
  is_coupling_ongoing (precice st) = false ->
  outcome_log (main fuel args) = l ++ [EvFinalize]
  /\ sub_steps (outcome_log (main fuel args)) = 0%nat
  /\ exchanges (outcome_log (main fuel args)) = 0%nat
  /\ forall file, count_writes file (outcome_log (main fuel args)) = 1%nat.
Proof.
  intros Hrole Hs Hoff.
  rewrite (main_cases fuel args problem Hrole), Hs.
  assert (time_loop fuel (configure args problem) st l
          = Finished (mkState (t st) (n st) (dt st) (u_D_t st) (f_t st) (u_n st)
                        (u_np1 st) (u_ref st) (finalize (precice st)))
                     (l ++ [EvFinalize])) as ->
    by (destruct fuel; cbn [time_loop]; now rewrite Hoff).
  cbn [outcome_log]. split; [reflexivity|].
  destruct (start_ok _ st l Hs) as (_ & _ & _ & _ & _ & _ & errors & Herr).
  destruct (start_log (configure args problem)) as (n1 & n2 & n3 & Hlog).
  rewrite Hs in Hlog. cbn [script_log] in Hlog. cbv zeta in Herr.
  rewrite Herr in Hlog. subst l.
  unfold sub_steps, exchanges, count_writes.
  destruct (cfg_problem (configure args problem)); cbn;
    (split; [reflexivity|split; [reflexivity|intros []; reflexivity]]).
Qed.

End AbortFacts.

Lemma flux_failure_witness :
  time_loop (W := inconsistent_world) 1 inconsistent_cfg inconsistent_state0 []
  = Raised AssertionError
      [EvSolve (current_problem (W := inconsistent_world) inconsistent_cfg
                  inconsistent_state0)].
Proof.
  apply (flux_failure_aborts_the_run (W := inconsistent_world)
           inconsistent_cfg inconsistent_state0 AssertionError 0 []);
    vm_compute; reflexivity.
Defined.

Lemma run_without_coupling_steps_witness :
  sub_steps (outcome_log (main (W := reference_world [] 1) 3 default_neumann)) = 0%nat
  /\ exchanges (outcome_log (main (W := reference_world [] 1) 3 default_neumann)) = 0%nat.
Proof.
  destruct (start (W := reference_world [] 1)
              (configure (W := reference_world [] 1) default_neumann NEUMANN) [])
    as [[e l]|[st l]] eqn:Hs; [vm_compute in Hs; discriminate|].
  assert (is_coupling_ongoing (World := reference_world [] 1) (precice st) = false) as Hoff.
  { vm_compute in Hs. injection Hs as <- _. reflexivity. }
  destruct (run_without_coupling_steps (W := reference_world [] 1) 3 default_neumann
              NEUMANN st l eq_refl Hs Hoff) as (_ & H1 & H2 & _).
  split; assumption.
Defined.

(** ** The step size and the outputs of a pass *)

Section PassFacts.
Context {A : Type} {W : World A}.

(** X7. After a pass that reached its end, [dt] is one of the two numbers
    handed to [np.min], the adapter's [fenics_dt] or the negotiated step; it
    is above neither of them; and it is NaN as soon as one of them is, so a
    NaN step is not filtered out. *)
Theorem step_size_is_one_of_the_two (cfg : Config) (st st' : State A)
    (log log' : list Event) :
  loop_body cfg st log = inr (st', log') ->
  exists r,
    last_advance log' = Some r
    /\ (dt st' = fenics_dt (precice st') \/ dt st' = adv_dt r)
    /\ (fenics_dt (precice st') <? dt st')%float = false
    /\ (adv_dt r <? dt st')%float = false
    /\ (is_nan (fenics_dt (precice st')) = true \/ is_nan (adv_dt r) = true ->
        is_nan (dt st') = true).
Proof.
  intros (w & r & Hlast & _ & _ & _ & Hdt & _)%loop_body_step.
  exists r. split; [assumption|]. rewrite Hdt.
  apply np_min2_spec.
Qed.

(** The reference field after a pass, and the error evaluation of a pass
    that completed a window. *)
Lemma loop_body_reference (cfg : Config) (st st' : State A) (l : list Event) :
  loop_body cfg st [] = inr (st', l) ->
  exists r, last_advance l = Some r
    /\ if adv_complete r
       then u_ref st' = interpolate (p_u_D (current_problem cfg st)) (cfg_V cfg)
            /\ exists errors,
                 compute_errors (u_n st') (u_ref st') (cfg_V cfg) (Some error_tol)
                 = ret errors
       else u_ref st' = u_ref st.
Proof.
  unfold_script. cbn.
  destruct (cfg_problem cfg).
  - destruct (fluxes_from_temperature_full_domain _ _) as [e|w]; [discriminate|].
    cbn. destruct (adv_complete _) eqn:Hc.
    + destruct (compute_errors _ _ _ _) as [e|[err ep]] eqn:He; [discriminate|].
      cbn. intros [= <- <-]. eexists. split; [reflexivity|]. cbn. rewrite Hc. eauto.
    + intros [= <- <-]. eexists. split; [reflexivity|]. cbn. now rewrite Hc.
  - cbn. destruct (adv_complete _) eqn:Hc.
    + destruct (compute_errors _ _ _ _) as [e|[err ep]] eqn:He; [discriminate|].
      cbn. intros [= <- <-]. eexists. split; [reflexivity|]. cbn. rewrite Hc. eauto.
    + intros [= <- <-]. eexists. split; [reflexivity|]. cbn. now rewrite Hc.
Qed.

Lemma written_app (file : OutFile) (l l' : list Event) :
  written file (l ++ l') = written file l ++ written file l'.
Proof. unfold written. apply bind_app. Qed.

(** X15. A pass that reached its end writes nothing when the exchange did
    not complete a window.  When it did, the temperature written is the
    previous field [u_n] as the adapter left it, the reference written is
    the interpolation of [u_D] at the time the solve of this pass used, and
    the error field written is the one [compute_errors] returned for these
    two fields with the tolerance 1e-12. *)
Theorem outputs_of_a_pass (cfg : Config) (st st' : State A) (log log' : list Event) :
  loop_body cfg st log = inr (st', log') ->
  let V := cfg_V cfg in
  let reference := interpolate (p_u_D (current_problem cfg st)) V in
  exists r,
    last_advance log' = Some r
    /\ if adv_complete r
       then written temperature_out log' = written temperature_out log ++ [u_n st']
            /\ written ref_out log' = written ref_out log ++ [reference]
            /\ exists errors,
                 compute_errors (u_n st') reference V (Some 1e-12%float) = ret errors
                 /\ written error_out log' = written error_out log ++ [snd errors]
       else forall file, written file log' = written file log.
Proof.
  rewrite (extends_loop_body cfg st log).
  destruct (loop_body cfg st []) as [[e l]|[st1 l]] eqn:Hbody; [discriminate|].
  cbn [with_prefix]. intros [= <- <-]. cbv zeta.
  destruct (loop_body_reference cfg st st1 l Hbody) as (r & Hlast & Href).
  exists r. split.
  { rewrite last_advance_app, Hlast. reflexivity. }
  pose proof (loop_body_events cfg st) as Hev. cbv zeta in Hev. rewrite Hbody in Hev.
  destruct Hev as (w & u & r' & -> & _).
  assert (r' = r) as ->.
  { revert Hlast. unfold last_advance. cbn. destruct (adv_complete r'); cbn; congruence. }
  destruct (adv_complete r) eqn:Hc.
  - destruct Href as (Href & errors & He).
    rewrite !written_app. rewrite <- Href. cbn. rewrite He.
    split; [reflexivity|]. split; [reflexivity|].
    exists errors. split; [exact He|reflexivity].
  - intros file. rewrite written_app. cbn. now rewrite app_nil_r.
Qed.

End PassFacts.

Lemma step_size_is_one_of_the_two_witness :
  exists r, last_advance (snd retry_pass1) = Some r
    /\ (fenics_dt (World := retry_world) (precice (fst retry_pass1))
        <? dt (fst retry_pass1))%float = false.
Proof.
  assert (loop_body (W := retry_world) retry_cfg retry_state0 []
          = inr (fst retry_pass1, snd retry_pass1)) as Hbody
    by (vm_compute; reflexivity).
  destruct (step_size_is_one_of_the_two (W := retry_world) _ _ _ _ _ Hbody)
    as (r & Hlast & _ & Hle & _).
  exists r. split; assumption.
Defined.

Lemma outputs_of_a_pass_witness :
  written temperature_out (snd one_step_pass1) = [u_n (fst one_step_pass1)].
Proof.
  assert (loop_body (W := one_step_world) one_step_cfg one_step_state0 []
          = inr (fst one_step_pass1, snd one_step_pass1)) as Hbody
    by (vm_compute; reflexivity).
  destruct (outputs_of_a_pass (W := one_step_world) _ _ _ _ _ Hbody)
    as (r & Hlast & Hout).
  assert (Some r = Some (mkAdvance 1 1 true 1)) as [= ->]
    by (rewrite <- Hlast; vm_compute; reflexivity).
  cbn [adv_complete] in Hout. destruct Hout as (-> & _). reflexivity.
Defined.

(** ** More on the flux evaluator *)

Section FluxEdgeFacts.
Context {A : Type} {W : World A}.

(** The entries of a returned flux field, and the degrees of freedom that
    make the evaluator raise. *)
Lemma flux_evaluator_entries (F : Form) (V : FunctionSpaceT) :
  length (assemble F) = dim V ->
  length (assemble (v_ds V)) = dim V ->
  (forall fluxes, fluxes_from_temperature_full_domain F V = ret fluxes ->
     forall i a r, assemble (v_ds V) !! i = Some a -> assemble F !! i = Some r ->
       fluxes !! i = Some (scaled_flux r a) /\ residual_consistent r a = true)
  /\ (forall i a r, assemble (v_ds V) !! i = Some a -> assemble F !! i = Some r ->
        residual_consistent r a = false ->
        fluxes_from_temperature_full_domain F V = raise AssertionError).
Proof.
  intros HlenF Hlena.
  assert (length (assemble F) = length (assemble (v_ds V))) as Hsame by congruence.
  assert (length (replicate (dim V) 0%float) = length (assemble (v_ds V))) as Hzeros
    by (rewrite length_replicate; congruence).
  unfold fluxes_from_temperature_full_domain, for_range.
  destruct (flux_loop_cases (assemble F) (assemble (v_ds V)) Hsame
              (length (assemble (v_ds V))) 0 (replicate (dim V) 0%float)
              (Nat.le_refl _) Hzeros)
    as [[(i & a & r & Hi & Ha & Hr & Hcons) Hraise]
       |[Hall (out & Hout & Hlen & _ & Hnew)]].
  - rewrite Hraise. split; [intros fluxes [=]|reflexivity].
  - rewrite Hout. split.
    + intros fluxes [= <-] i a r Ha Hr.
      assert (0 <= i < 0 + length (assemble (v_ds V)))%nat as Hi
        by (apply lookup_lt_Some in Ha; lia).
      split; [now apply Hnew|now apply (Hall i)].
    + intros i a r Ha Hr Hcons.
      assert (0 <= i < 0 + length (assemble (v_ds V)))%nat as Hi
        by (apply lookup_lt_Some in Ha; lia).
      rewrite (Hall i a r Hi Ha Hr) in Hcons. discriminate.
Qed.

(** X11. In a flux field the evaluator returns, the entry of a degree of
    freedom with zero measure is the raw residual itself, and its absolute
    value is below 1e-10: off the boundary the returned flux is numerically
    zero. *)
Theorem returned_flux_vanishes_off_the_boundary (F : Form) (V : FunctionSpaceT)
    (fluxes : Field) :
  length (assemble F) = dim V ->
  length (assemble (v_ds V)) = dim V ->
  fluxes_from_temperature_full_domain F V = ret fluxes ->
  forall i a, assemble (v_ds V) !! i = Some a -> (a =? 0)%float = true ->
    exists v, fluxes !! i = Some v /\ assemble F !! i = Some v
              /\ (abs v <? 1e-10)%float = true.
Proof.
  intros HlenF Hlena Hret i a Ha Hzero.
  destruct (flux_evaluator_entries F V HlenF Hlena) as [Hentries _].
  assert (exists r, assemble F !! i = Some r) as [r Hr].
  { apply lookup_lt_is_Some_2. apply lookup_lt_Some in Ha. lia. }
  destruct (Hentries fluxes Hret i a r Ha Hr) as [Hi Hcons].
  exists r. unfold scaled_flux, residual_consistent, flux_tolerance in *.
  rewrite Hzero in *. cbn in *. auto.
Qed.

(** X12. The evaluator does not reject values that are not numbers on the
    boundary: where the measure is NaN, or the residual is NaN and the
    measure is nonzero, the returned flux is NaN.  A NaN residual at a degree
    of freedom with zero measure fails the assertion. *)
Theorem nan_passes_on_the_boundary (F : Form) (V : FunctionSpaceT) (i : nat)
    (a r : float) :
  length (assemble F) = dim V ->
  length (assemble (v_ds V)) = dim V ->
  assemble (v_ds V) !! i = Some a -> assemble F !! i = Some r ->
  (is_nan a = true \/ (is_nan r = true /\ (a =? 0)%float = false) ->
   forall fluxes, fluxes_from_temperature_full_domain F V = ret fluxes ->
     exists v, fluxes !! i = Some v /\ is_nan v = true)
  /\ (is_nan r = true -> (a =? 0)%float = true ->
      fluxes_from_temperature_full_domain F V = raise AssertionError).
Proof.
  intros HlenF Hlena Ha Hr.
  destruct (flux_evaluator_entries F V HlenF Hlena) as [Hentries Hviolation].
  split.
  - intros Hnan fluxes Hret.
    destruct (Hentries fluxes Hret i a r Ha Hr) as [Hi _].
    exists (scaled_flux r a). split; [assumption|].
    unfold scaled_flux.
    assert ((a =? 0)%float = false) as ->.
    { destruct Hnan as [Hna|[_ Hnz]]; [|assumption].
      apply is_nan_spec in Hna. rewrite FloatAxioms.eqb_spec, Hna. reflexivity. }
    cbn [negb]. apply is_nan_of_spec. rewrite div_spec.
    destruct Hnan as [Hna|[Hnr _]].
    + apply is_nan_spec in Hna. rewrite Hna. unfold SF64div, SFdiv.
      now destruct (Prim2SF r).
    + apply is_nan_spec in Hnr. now rewrite Hnr.
  - intros Hnr Hzero. apply (Hviolation i a r Ha Hr).
    unfold residual_consistent. rewrite Hzero. cbn [negb orb].
    apply is_nan_spec in Hnr.
    rewrite FloatAxioms.ltb_spec, abs_spec, Hnr. reflexivity.
Qed.

End FluxEdgeFacts.

Lemma returned_flux_vanishes_witness :
  exists v, [1; 2; 3; 4; 0; 6; 7; 8; 9]%float !! 4%nat = Some v
            /\ (abs v <? 1e-10)%float = true.
Proof.
  destruct (returned_flux_vanishes_off_the_boundary (W := reference_world [] 1)
              small_F small_V [1; 2; 3; 4; 0; 6; 7; 8; 9]%float
              eq_refl eq_refl ltac:(vm_compute; reflexivity)
              4%nat 0%float eq_refl eq_refl) as (v & Hv & _ & Hsmall).
  exists v. split; assumption.
Defined.

Lemma nan_passes_witness :
  exists fluxes v,
    fluxes_from_temperature_full_domain (W := nan_measure_world) small_F0 small_V
      = ret fluxes
    /\ fluxes !! 1%nat = Some v /\ is_nan v = true.
Proof.
  destruct (fluxes_from_temperature_full_domain (W := nan_measure_world) small_F0 small_V)
    as [e|fluxes] eqn:Hflux; [vm_compute in Hflux; discriminate|].
  destruct (nan_passes_on_the_boundary (W := nan_measure_world) small_F0 small_V
              1%nat nan 2%float eq_refl eq_refl eq_refl eq_refl) as [Hnan _].
  destruct (Hnan (or_introl eq_refl) fluxes Hflux) as (v & Hv & Hisnan).
  exists fluxes, v. repeat split; assumption.
Defined.

(** ** More on the configuration paths and the output files *)

Lemma string_append_inj (a b c : string) : (a ++ b = a ++ c)%string -> b = c.
Proof. induction a as [|x a IH]; cbn; [auto|]. intros [= H]. now apply IH. Qed.

Lemma string_length_append (a b : string) :
  String.length (a ++ b) = (String.length a + String.length b)%nat.
Proof. induction a as [|x a IH]; cbn; [reflexivity|now rewrite IH]. Qed.

Lemma is_empty_of_prefix (s : string) : String.prefix "/" s = true -> is_empty s = false.
Proof. now destruct s. Qed.

Section MorePathFacts.
Context {A : Type} {W : World A}.

(** The own and the partner path: the same directory, joined with the file
    of the role and with the file of the other role. *)
Lemma config_filenames_eq (args : Args) (problem : ProblemType) :
  let directory := configs_path (configure args problem) in
  let sep := if (is_empty directory || endswith_sep directory)%bool
             then ""%string else "/"%string in
  let own := match problem with DIRICHLET => "D" | NEUMANN => "N" end%string in
  let other := match problem with DIRICHLET => "N" | NEUMANN => "D" end%string in
  adapter_config_filename (configure args problem)
  = (directory ++ sep ++ "precice-adapter-config-" ++ own ++ ".json")%string
  /\ other_adapter_config_filename (configure args problem)
     = (directory ++ sep ++ "precice-adapter-config-" ++ other ++ ".json")%string.
Proof.
  cbv zeta.
  assert (forall dir file : string,
            String.prefix "/" file = false ->
            join_step dir file
            = (dir ++ (if (is_empty dir || endswith_sep dir)%bool then "" else "/")
                 ++ file)%string) as Hjoin.
  { intros dir file Hfile. unfold join_step. rewrite Hfile.
    now destruct (_ || _)%bool. }
  destruct problem; split.
  - exact (Hjoin _ "precice-adapter-config-D.json"%string eq_refl).
  - exact (Hjoin _ "precice-adapter-config-N.json"%string eq_refl).
  - exact (Hjoin _ "precice-adapter-config-N.json"%string eq_refl).
  - exact (Hjoin _ "precice-adapter-config-D.json"%string eq_refl).
Qed.

(** X13. A scheme name that starts with the separator replaces the
    directories joined before it: when it does not also end with the
    separator, the two paths are the scheme name followed by
    [/precice-adapter-config-{D,N}.json], whatever the waveform orders and
    the window size. *)
Theorem absolute_scheme_replaces_directory (args : Args) :
  String.prefix "/" (coupling_scheme args) = true ->
  endswith_sep (coupling_scheme args) = false ->
  configs_path (configure args DIRICHLET) = coupling_scheme args
  /\ adapter_config_filename (configure args DIRICHLET)
     = (coupling_scheme args ++ "/precice-adapter-config-D.json")%string
  /\ other_adapter_config_filename (configure args DIRICHLET)
     = (coupling_scheme args ++ "/precice-adapter-config-N.json")%string
  /\ adapter_config_filename (configure args NEUMANN)
     = (coupling_scheme args ++ "/precice-adapter-config-N.json")%string
  /\ other_adapter_config_filename (configure args NEUMANN)
     = (coupling_scheme args ++ "/precice-adapter-config-D.json")%string.
Proof.
  intros Habs Hend.
  assert (forall problem, configs_path (configure args problem) = coupling_scheme args)
    as Hdir.
  { intros problem.
    destruct problem; cbn [configure configs_path os_path_join fold_left];
      unfold join_step at 1, coupling_scheme_tag; now rewrite Habs. }
  split; [apply Hdir|].
  pose proof (config_filenames_eq args DIRICHLET) as [HD1 HD2].
  pose proof (config_filenames_eq args NEUMANN) as [HN1 HN2].
  cbv zeta in *. rewrite !Hdir in *.
  rewrite (is_empty_of_prefix _ Habs), Hend in *. cbn [orb] in *.
  rewrite HD1, HD2, HN1, HN2. repeat split.
Qed.

(** X14. Whatever the flags, the own path and the partner path of a
    participant differ, and the two roles name the same two files: the own
    path of one role is the partner path of the other. *)
Theorem own_and_partner_paths_differ (args : Args) (problem : ProblemType) :
  String.eqb (adapter_config_filename (configure args problem))
             (other_adapter_config_filename (configure args problem)) = false
  /\ adapter_config_filename (configure args DIRICHLET)
     = other_adapter_config_filename (configure args NEUMANN)
  /\ other_adapter_config_filename (configure args DIRICHLET)
     = adapter_config_filename (configure args NEUMANN).
Proof.
  split; [|split; reflexivity].
  apply String.eqb_neq.
  pose proof (config_filenames_eq args problem) as [-> ->]. cbv zeta.
  intros H%string_append_inj%string_append_inj.
  destruct problem; discriminate.
Qed.

(** X16. The three output files are opened at the start under the names
    [out/<name>.pvd], [out/ref<name>.pvd] and [out/error<name>.pvd], where
    [<name>] is the [_solver_name] of the adapter object after its
    [initialize]: the adapter built from the two configuration paths and
    initialised with the fields of the role.  These names differ from one
    another whatever the solver name is: no series is written over
    another. *)
Theorem output_files_have_distinct_names (cfg : Config) :
  let V := cfg_V cfg in
  let u_D_function := interpolate (u_D 0) V in
  let f_N_function := interpolate (f_N 0) V in
  let u_n := interpolate (u_D 0) V in
  let adapter :=
    Adapter (adapter_config_filename cfg) (other_adapter_config_filename cfg) in
  let initialized :=
    fst match cfg_problem cfg with
        | DIRICHLET =>
            initialize adapter coupling_boundary (cfg_mesh cfg)
              u_D_function f_N_function u_n
        | NEUMANN =>
            initialize adapter coupling_boundary (cfg_mesh cfg)
              f_N_function u_D_function u_n
        end in
  let name := _solver_name initialized in
  opened (script_log (start cfg []))
  = [(temperature_out, "out/" ++ name ++ ".pvd");
     (ref_out, "out/ref" ++ name ++ ".pvd");
     (error_out, "out/error" ++ name ++ ".pvd")]%string
  /\ String.eqb ("out/" ++ name ++ ".pvd") ("out/ref" ++ name ++ ".pvd") = false
  /\ String.eqb ("out/" ++ name ++ ".pvd") ("out/error" ++ name ++ ".pvd") = false
  /\ String.eqb ("out/ref" ++ name ++ ".pvd") ("out/error" ++ name ++ ".pvd") = false
  /\ match start cfg [] with
     | inr (st, _) => _solver_name (precice st) = name
     | inl _ => True
     end.
Proof.
  assert (forall name : string,
            String.eqb ("out/" ++ name ++ ".pvd") ("out/ref" ++ name ++ ".pvd") = false
            /\ String.eqb ("out/" ++ name ++ ".pvd") ("out/error" ++ name ++ ".pvd") = false
            /\ String.eqb ("out/ref" ++ name ++ ".pvd") ("out/error" ++ name ++ ".pvd")
               = false) as Hnames.
  { intros name. repeat split; apply String.eqb_neq; intros H;
      apply (f_equal String.length) in H;
      rewrite !string_length_append in H; cbn in H; lia. }
  cbv zeta.
  match goal with
  | |- _ /\ String.eqb ("out/" ++ ?name ++ _) _ = _ /\ _ =>
      destruct (Hnames name) as (H1 & H2 & H3)
  end.
  split; [|split; [exact H1|split; [exact H2|split; [exact H3|]]]];
    clear H1 H2 H3 Hnames; unfold_script;
    destruct (cfg_problem cfg); cbn;
    destruct (compute_errors _ _ _ _) as [e|errors]; cbn; try reflexivity; exact I.
Qed.

(** X18. The directory name does not separate the two waveform orders, so
    different pairs of orders can lead to the same configuration files: the
    orders (1, 10 + j) and (11, j) do for every digit j. *)
Theorem waveform_orders_can_collide (d n : bool) (dT : float) (scheme : string)
    (problem : ProblemType) (j : Z) :
  0 <= j <= 9 ->
  configure (mkArgs d n (1, 10 + j) dT scheme) problem
  = configure (mkArgs d n (11, j) dT scheme) problem.
Proof.
  intros Hj.
  assert (wr_tag (mkArgs d n (1, 10 + j) dT scheme)
          = wr_tag (mkArgs d n (11, j) dT scheme)) as Htag.
  { assert (j = 0 \/ j = 1 \/ j = 2 \/ j = 3 \/ j = 4 \/ j = 5 \/ j = 6 \/ j = 7
            \/ j = 8 \/ j = 9) as Hcases by lia.
    repeat (destruct Hcases as [->|Hcases]; [reflexivity|]). now subst j. }
  unfold configure. rewrite Htag. reflexivity.
Qed.

End MorePathFacts.

Lemma absolute_scheme_witness :
  adapter_config_filename (configure (W := reference_world [] 1) absolute_scheme DIRICHLET)
  = "/tmp/precice-adapter-config-D.json"%string.
Proof.
  destruct (absolute_scheme_replaces_directory (W := reference_world [] 1) absolute_scheme
              eq_refl eq_refl) as (_ & -> & _).
  reflexivity.
Defined.

Lemma waveform_orders_collide_witness :
  adapter_config_filename
    (configure (W := reference_world [] 1)
       (mkArgs true false (1, 11) 1%float "SERIAL_FIRST_DIRICHLET") DIRICHLET)
  = adapter_config_filename
      (configure (W := reference_world [] 1)
         (mkArgs true false (11, 1) 1%float "SERIAL_FIRST_DIRICHLET") DIRICHLET).
Proof.
  exact (f_equal adapter_config_filename
           (waveform_orders_can_collide (W := reference_world [] 1)
              true false 1%float "SERIAL_FIRST_DIRICHLET" DIRICHLET 1 ltac:(lia))).
Defined.

(** ** More on the geometry predicates *)

Section EdgeFacts.
Context {A : Type} {W : World A}.

(** X10. A point whose second coordinate is [near] the bottom or the top of
    the domain, or whose first coordinate is not [near] the interface, is
    never on the coupling boundary; when it is on the boundary of the mesh it
    belongs to the complementary boundary, where [u_D] is imposed.  This
    includes the two end points of the interface. *)
Theorem outer_edges_belong_to_the_complement (x : Point) (on_boundary : bool) :
  near (x1 x) y_bottom 1e-14%float = true
  \/ near (x1 x) y_top 1e-14%float = true
  \/ near (x0 x) x_coupling 1e-14%float = false ->
  CouplingBoundary_inside x on_boundary = false
  /\ remaining_boundary x on_boundary = on_boundary.
Proof.
  rewrite remaining_boundary_eq, CouplingBoundary_inside_eq.
  intros [-> | [-> | ->]]; destruct on_boundary; cbn;
    rewrite ?andb_false_r; auto.
Qed.

End EdgeFacts.

Lemma outer_edges_witness :
  CouplingBoundary_inside (W := reference_world [] 1) (mkPoint 1.5 0) true = false
  /\ remaining_boundary (W := reference_world [] 1) (mkPoint 1.5 0) true = true.
Proof.
  apply (outer_edges_belong_to_the_complement (W := reference_world [] 1)
           (mkPoint 1.5 0) true).
  left. reflexivity.
Defined.

(** ** The expressions with the parameters of the script *)

Lemma mul_zero_finite (z x : float) (s : bool) :
  Prim2SF z = S754_zero s -> is_finite x = true ->
  exists s', Prim2SF (z * x) = S754_zero s'.
Proof.
  intros Hz Hx%is_finite_spec. rewrite mul_spec, Hz.
  destruct (Prim2SF x); try easy; cbn; eauto.
Qed.

Lemma add_zero_r (y z : float) (s sy : bool) (my : positive) (ey : Z) :
  Prim2SF z = S754_zero s -> Prim2SF y = S754_finite sy my ey -> (y + z)%float = y.
Proof.
  intros Hz Hy. apply Prim2SF_inj. rewrite add_spec, Hz, Hy. reflexivity.
Qed.

Lemma sub_zero_r (y z : float) (s sy : bool) (my : positive) (ey : Z) :
  Prim2SF z = S754_zero s -> Prim2SF y = S754_finite sy my ey -> (y - z)%float = y.
Proof.
  intros Hz Hy. apply Prim2SF_inj. rewrite sub_spec, Hz, Hy. reflexivity.
Qed.

(** X8. With alpha = 3, beta = 1.3 and gamma = 0 the source term [f] is, in
    binary64, the constant [beta - 2 - 2 * alpha] at every point with a
    finite first coordinate and at every finite time, as the description at
    the head of the script states. *)
Theorem source_term_is_constant (t : float) (x : Point) :
  is_finite t = true -> is_finite (x0 x) = true ->
  eval_expression (Expr_f alpha beta gamma t) x = (beta - 2 - 2 * alpha)%float.
Proof.
  intros Ht Hx. unfold eval_expression, alpha, beta, gamma.
  destruct (mul_zero_finite 0 (x0 x) false eq_refl Hx) as [s1 Hz1].
  destruct (mul_zero_finite _ (x0 x) s1 Hz1 Hx) as [s2 Hz2].
  rewrite (add_zero_r 1.3 _ s2 false 5854679515581645 (-52) Hz2 eq_refl).
  change (2 * 0)%float with 0%float.
  destruct (mul_zero_finite 0 t false eq_refl Ht) as [s3 Hz3].
  rewrite (sub_zero_r 1.3 _ s3 false 5854679515581645 (-52) Hz3 eq_refl).
  reflexivity.
Qed.

(** X9. With gamma = 0 the flux expression [f_N] does not depend on time:
    at every finite time and every point with a finite first coordinate it
    is, in binary64, [2 * x[0]], up to the sign of a zero. *)
Theorem flux_expression_is_twice_x (t : float) (x : Point) :
  is_finite t = true -> is_finite (x0 x) = true ->
  eval_expression (Expr_f_N gamma t) x = (2 * x0 x)%float
  \/ ((eval_expression (Expr_f_N gamma t) x =? 0)%float = true
      /\ (2 * x0 x =? 0)%float = true).
Proof.
  intros Ht Hx. unfold eval_expression, gamma.
  change (2 * 0)%float with 0%float.
  change (2 * (1 - 0))%float with 2%float.
  destruct (mul_zero_finite 0 t false eq_refl Ht) as [s1 Hz1].
  destruct (mul_zero_finite _ (x0 x) s1 Hz1 Hx) as [s2 Hz2].
  destruct (Prim2SF (2 * x0 x)) as [s|s| |s m e] eqn:Hw.
  - right. rewrite !FloatAxioms.eqb_spec, add_spec, Hz2, Hw.
    split; [|reflexivity]. now destruct s2, s.
  - left. apply Prim2SF_inj. rewrite add_spec, Hz2, Hw. reflexivity.
  - left. apply Prim2SF_inj. rewrite add_spec, Hz2, Hw. reflexivity.
  - left. apply Prim2SF_inj. rewrite add_spec, Hz2, Hw. reflexivity.
Qed.

Lemma source_term_witness :
  eval_expression (Expr_f alpha beta gamma 0.5) (mkPoint 1.5 0.5)
  = (beta - 2 - 2 * alpha)%float.
Proof.
  apply (source_term_is_constant 0.5 (mkPoint 1.5 0.5)); reflexivity.
Defined.

Lemma flux_expression_witness :
  eval_expression (Expr_f_N gamma 0.5) (mkPoint 1.5 0.5) = 3%float.
Proof.
  destruct (flux_expression_is_twice_x 0.5 (mkPoint 1.5 0.5) eq_refl eq_refl)
    as [H|[_ H]]; [exact H|discriminate H].
Defined.

Lemma SFmul_one_l (s : bool) (m : positive) (e : Z) :
  bounded prec emax m e = true ->
  SF64mul (S754_finite false 4503599627370496 (-52)) (S754_finite s m e)
  = S754_finite s m e.
Proof.
  intros Hb. unfold bounded, canonical_mantissa in Hb.
  apply andb_prop in Hb as [Hcan Hmax].
  apply Z.eqb_eq in Hcan.
  unfold SF64mul, SFmul. cbn [xorb].
  unfold binary_round_aux.
  change (Pos.mul 4503599627370496 m) with (Pos.iter xO m 52).
  set (M := Pos.iter xO m 52).
  assert (Hd : Zpos (digits2_pos M) = Zpos (digits2_pos m) + 52).
  { subst M. cbv [Pos.iter]. cbn [digits2_pos]. rewrite !Pos2Z.inj_succ. lia. }
  unfold shr_fexp at 1. cbn [Zdigits2]. rewrite Hd.
  replace (Z.pos (digits2_pos m) + 52 + (-52 + e)) with (Z.pos (digits2_pos m) + e)
    by lia.
  rewrite Hcan.
  replace (e - (-52 + e)) with 52 by lia.
  cbn [shr shr_record_of_loc].
  assert (Hiter : SpecFloat.iter_pos shr_1 52
                    {| shr_m := Z.pos M; shr_r := false; shr_s := false |}
                  = {| shr_m := Z.pos m; shr_r := false; shr_s := false |}).
  { subst M. reflexivity. }
  rewrite Hiter. cbn [shr_m loc_of_shr_record round_nearest_even].
  unfold shr_fexp. cbn [Zdigits2].
  replace (-52 + e + 52) with e by lia.
  rewrite Hcan, Z.sub_diag. cbn [shr shr_record_of_loc shr_m].
  now rewrite Hmax.
Qed.

(** Multiplying by one is exact. *)
Lemma mul_one_l (x : float) : (1 * x)%float = x.
Proof.
  apply Prim2SF_inj. rewrite mul_spec.
  change (Prim2SF 1) with (S754_finite false 4503599627370496 (-52)).
  pose proof (Prim2SF_valid x) as Hv.
  destruct (Prim2SF x) as [s|s| |s m e] eqn:Hp; try reflexivity.
  now apply SFmul_one_l.
Qed.

(** X19. With alpha = 3, beta = 1.3 and gamma = 0 the boundary value [u_D]
    is, in binary64, exactly [1 + x[0]^2 + 3 x[1]^2 + 1.3 t] at every finite
    time and every point with a finite first coordinate: the term weighted
    by gamma drops out and the factor [1 - gamma] is one. *)
Theorem boundary_value_is_the_manufactured_solution (t : float) (x : Point) :
  is_finite t = true -> is_finite (x0 x) = true ->
  eval_expression (Expr_u_D alpha beta gamma t) x
  = (1 + x0 x * x0 x + 3 * x1 x * x1 x + 1.3 * t)%float.
Proof.
  intros Ht Hx. unfold eval_expression, alpha, beta, gamma.
  destruct (mul_zero_finite 0 t false eq_refl Ht) as [s1 Hz1].
  destruct (mul_zero_finite _ (x0 x) s1 Hz1 Hx) as [s2 Hz2].
  destruct (mul_zero_finite _ (x0 x) s2 Hz2 Hx) as [s3 Hz3].
  rewrite (add_zero_r 1 _ s3 false 4503599627370496 (-52) Hz3 eq_refl).
  change (1 - 0)%float with 1%float.
  now rewrite mul_one_l.
Qed.

Lemma boundary_value_witness :
  eval_expression (Expr_u_D alpha beta gamma 0) (mkPoint 1.5 0.5) = 4%float.
Proof.
  rewrite (boundary_value_is_the_manufactured_solution 0 (mkPoint 1.5 0.5) eq_refl eq_refl).
  reflexivity.
Defined.
